(** * Tic-tac-toe front end: the game core of [App.js]

    A shallow embedding of the game logic of
    [tic_tac_toe_frontend/src/App.js]: the win detector [calculateWinner],
    [availableMoves], the heuristic opponent [aiMove], and the handlers of
    the [App] component that change the session state ([handlePlay], the AI
    turn effect, [resetGame], [restartAndSwap], [toggleAiSide] and the
    click handlers of the mode toggle and of the AI side chips), together
    with what the view derives from the state: [statusMessage] and the
    highlighting of the winning line by [Board]. *)

From stdpp Require Import base numbers option list sorting strings gmap.

(** ** Marks and cells *)

(** The strings ['X'] and ['O']. *)
Inductive Mark : Set := X | O.

#[global] Instance Mark_eq_dec : EqDecision Mark.
Proof. solve_decision. Defined.

(** What a board slot holds: a mark, or [null].  Reading past the end of a
    JavaScript array gives [undefined]; the program only ever tests a cell
    for truthiness ([!c], [c && ...]), with [== null], or compares it with
    [===] against a cell already known to be a mark, and none of these
    tells [null] from [undefined], so both are [None]. *)
Abbreviation Cell := (option Mark).

(** [Boolean(c)] for a cell: the marks are non-empty strings. *)
Definition truthy (c : Cell) : bool :=
  match c with Some _ => true | None => false end.

(** [board[i]] for an array index [i]. *)
Definition cell (board : list Cell) (i : nat) : Cell :=
  default None (board !! i).

(** [copy[i] = v] for an array index [i]: inside the array the slot is
    overwritten; at or past its end the array grows to [i + 1] slots, the
    new slots before [i] being holes (which read as [undefined]). *)
Definition setAt (board : list Cell) (i : nat) (v : Mark) : list Cell :=
  if decide (i < length board) then <[i := Some v]> board
  else board ++ replicate (i - length board) None ++ [Some v].

(** ** Utility helpers *)

Abbreviation Line := (nat * nat * nat)%type.

Definition LINES : list Line :=
  [ (0, 1, 2);  (* rows *)
    (3, 4, 5);
    (6, 7, 8);
    (0, 3, 6);  (* cols *)
    (1, 4, 7);
    (2, 5, 8);
    (0, 4, 8);  (* diags *)
    (2, 4, 6) ].

(** The object [{ winner, line }] that [calculateWinner] returns. *)
Record WinResult : Set := mkWinResult {
  winner : option Mark;
  line : option Line
}.

#[global] Instance WinResult_eq_dec : EqDecision WinResult.
Proof. solve_decision. Defined.

(** The test of the [if] in the loop of [calculateWinner]:
    [board[a] && board[a] === board[b] && board[a] === board[c]]. *)
Definition lineWins (board : list Cell) (l : Line) : bool :=
  let '(a, b, c) := l in
  truthy (cell board a)
  && bool_decide (cell board a = cell board b)
  && bool_decide (cell board a = cell board c).

(** The [for ... of] loop of [calculateWinner], over the lines still to be
    looked at; it returns from inside the loop at the first hit. *)
Fixpoint scanLines (lines : list Line) (board : list Cell) : WinResult :=
  match lines with
  | [] => {| winner := None; line := None |}
  | (a, b, c) :: rest =>
      if lineWins board (a, b, c)
      then {| winner := cell board a; line := Some (a, b, c) |}
      else scanLines rest board
  end.

Definition calculateWinner (board : list Cell) : WinResult :=
  scanLines LINES board.

(** The loop [for (let i = 0; i < board.length; i++) if (!board[i]) moves.push(i)]. *)
Definition availableMoves (board : list Cell) : list nat :=
  filter (λ i, truthy (cell board i) = false) (seq 0 (length board)).

(** ** The opponent *)

(** [aiPlayer === 'X' ? 'O' : 'X'] *)
Definition opponent (aiPlayer : Mark) : Mark :=
  match aiPlayer with X => O | O => X end.

(** The body of the two scanning loops of [aiMove]: would [mark] win after
    [copy = [...board]; copy[m] = mark]? *)
Definition winsAt (board : list Cell) (mark : Mark) (m : nat) : Prop :=
  winner (calculateWinner (setAt board m mark)) = Some mark.

#[global] Instance winsAt_dec board mark m : Decision (winsAt board mark m).
Proof. unfold winsAt. apply _. Defined.

(** [for (const m of moves) { ...; if (...) return m; }]: the first move of
    [moves] that passes the test, if there is one. *)
Definition firstWinning (board : list Cell) (mark : Mark) (moves : list nat)
  : option nat :=
  snd <$> list_find (winsAt board mark) moves.

(** [[...].filter((i) => board[i] == null)] *)
Definition emptyAmong (board : list Cell) (candidates : list nat) : list nat :=
  filter (λ i, cell board i = None) candidates.

(** [aiMove(board, aiPlayer)].  The result is an index or [null].

    [Math.random()] is the one impure call; [rnd] stands for its draw.  At
    most one of the two calls is reached in a run, with a list [l] of 1 to 4
    candidates, and [Math.floor(Math.random() * l.length)] is then an
    arbitrary index of [l]: here [rnd mod length l]. *)
Definition aiMove (rnd : nat) (board : list Cell) (aiPlayer : Mark)
  : option nat :=
  let human := opponent aiPlayer in
  let moves := availableMoves board in
  if decide (length moves = 0) then None else
  (* Try to win *)
  match firstWinning board aiPlayer moves with
  | Some m => Some m
  | None =>
  (* Block opponent *)
  match firstWinning board human moves with
  | Some m => Some m
  | None =>
  (* Take center *)
  if decide (cell board 4 = None) then Some 4 else
  (* Take a corner *)
  let corners := emptyAmong board [0; 2; 6; 8] in
  if decide (length corners ≠ 0) then corners !! (rnd mod length corners) else
  (* Take a side *)
  let sides := emptyAmong board [1; 3; 5; 7] in
  if decide (length sides ≠ 0) then sides !! (rnd mod length sides) else
  head moves
  end end.

(** ** The board held in the component state *)

(** A JavaScript array as [handlePlay] can leave it.  [handlePlay] writes
    [copy[index]] with whatever integer it is given: an array index
    (0 to 2^32 - 2) addresses a slot of the array, any other integer is an
    ordinary property of the array object, which does not count towards
    [length] and which spreading ([[...board]]) does not copy.  [elems] are
    the slots, [props] those other properties. *)
Record Board : Type := mkBoard {
  elems : list Cell;
  props : gmap Z Mark
}.

#[global] Instance Board_eq_dec : EqDecision Board.
Proof. solve_decision. Defined.

Definition isArrayIndex (i : Z) : bool :=
  bool_decide (0 ≤ i < 2 ^ 32 - 1)%Z.

(** [board[i]] for an integer [i] *)
Definition boardGet (b : Board) (i : Z) : Cell :=
  if isArrayIndex i then cell (elems b) (Z.to_nat i) else props b !! i.

(** [board[i] = v] for an integer [i] *)
Definition boardSet (b : Board) (i : Z) (v : Mark) : Board :=
  if isArrayIndex i
  then {| elems := setAt (elems b) (Z.to_nat i) v; props := props b |}
  else {| elems := elems b; props := <[i := v]> (props b) |}.

(** [[...board]] *)
Definition spread (b : Board) : Board :=
  {| elems := elems b; props := ∅ |}.

(** [Array(9).fill(null)] *)
Definition emptyBoard : Board :=
  {| elems := replicate 9 None; props := ∅ |}.

(** ** The component state *)

(** ['PVP'] and ['AI'], the two values [setMode] is ever called with. *)
Inductive Mode : Set := PVP | AI.

#[global] Instance Mode_eq_dec : EqDecision Mode.
Proof. solve_decision. Defined.

(** The [useState] cells of [App] that the game depends on ([theme] is a
    constant). *)
Record Session : Type := mkSession {
  mode : Mode;
  board : Board;
  xIsNext : bool;
  aiPlays : Mark
}.

#[global] Instance Session_eq_dec : EqDecision Session.
Proof. solve_decision. Defined.

(** The state of the first render. *)
Definition initialSession : Session :=
  {| mode := AI; board := emptyBoard; xIsNext := true; aiPlays := O |}.

(** The values [App] derives from the state at every render. *)
Definition isDraw (board : list Cell) : bool :=
  negb (truthy (winner (calculateWinner board)))
  && bool_decide (length (availableMoves board) = 0).

Definition currentPlayer (s : Session) : Mark :=
  if xIsNext s then X else O.

Definition sessionWinner (s : Session) : option Mark :=
  winner (calculateWinner (elems (board s))).

Definition sessionIsDraw (s : Session) : bool :=
  isDraw (elems (board s)).

(** [winner || isDraw], the guard that both [handlePlay] and the AI turn
    effect start with. *)
Definition gameOver (s : Session) : bool :=
  truthy (sessionWinner s) || sessionIsDraw s.

(** ** Handlers *)

(** [handlePlay(index)] *)
Definition handlePlay (s : Session) (index : Z) : Session :=
  if gameOver s then s
  else if truthy (boardGet (board s) index) then s
  (* If AI mode and it's AI's turn, ignore user click *)
  else if bool_decide (mode s = AI) && bool_decide (currentPlayer s = aiPlays s)
  then s
  else {| mode := mode s;
          board := boardSet (spread (board s)) index (currentPlayer s);
          xIsNext := negb (xIsNext s);
          aiPlays := aiPlays s |}.

(** The callback that the AI turn effect hands to [setTimeout].  [shown] is
    the state of the render that ran the effect: the callback closes over
    its [board] and [aiPlays].  [s] is the state at the moment the queued
    updates are applied: [setBoard] and [setXIsNext] are given updater
    functions, which receive the then current values. *)
Definition aiTimeout (rnd : nat) (shown s : Session) : Session :=
  match aiMove rnd (elems (board shown)) (aiPlays shown) with
  | Some move =>
      {| mode := mode s;
         board :=
           (let b := board s in
            if truthy (boardGet b (Z.of_nat move)) then b
            else boardSet (spread b) (Z.of_nat move) (aiPlays shown));
         xIsNext := negb (xIsNext s);
         aiPlays := aiPlays s |}
  | None => s
  end.

(** The AI turn effect: whether a render of [s] arms the timer. *)
Definition aiTurnDue (s : Session) : bool :=
  if negb (bool_decide (mode s = AI)) then false
  else if gameOver s then false
  else if negb (bool_decide (currentPlayer s = aiPlays s)) then false
  else true.

(** The computer's turn: the effect of the render of [s] and, when it armed
    the timer, the timer firing.  Every state cell of [Session] is a
    dependency of the effect, so a change of any of them clears the timer:
    it fires on the state that armed it. *)
Definition computerTurn (rnd : nat) (s : Session) : Session :=
  if aiTurnDue s then aiTimeout rnd s s else s.

(** [resetGame()] *)
Definition resetGame (s : Session) : Session :=
  {| mode := mode s; board := emptyBoard; xIsNext := true;
     aiPlays := aiPlays s |}.

(** [restartAndSwap()] *)
Definition restartAndSwap (s : Session) : Session :=
  {| mode := mode s; board := emptyBoard; xIsNext := negb (xIsNext s);
     aiPlays := aiPlays s |}.

(** [toggleAiSide()] *)
Definition toggleAiSide (s : Session) : Session :=
  {| mode := mode s; board := emptyBoard; xIsNext := true;
     aiPlays := (if decide (aiPlays s = X) then O else X) |}.

(** The [setMode] prop given to [ModeToggle]: [(m) => { setMode(m); resetGame(); }] *)
Definition selectMode (s : Session) (m : Mode) : Session :=
  resetGame {| mode := m; board := board s; xIsNext := xIsNext s;
               aiPlays := aiPlays s |}.

(** [onClick] of the AI side chip labelled [mark]:
    [() => { if (aiPlays !== mark) toggleAiSide(); }] *)
Definition chipClick (s : Session) (mark : Mark) : Session :=
  if decide (aiPlays s ≠ mark) then toggleAiSide s else s.

(** ** Runs of the session *)

Inductive Event : Set :=
  | Play (index : Z)          (* a click on a square *)
  | ComputerTurn (rnd : nat)  (* the AI turn effect and its timer *)
  | Reset
  | RestartAndSwap
  | SetMode (m : Mode)
  | SetComputerMark (mark : Mark).

#[global] Instance Event_eq_dec : EqDecision Event.
Proof. solve_decision. Defined.

Definition step (s : Session) (e : Event) : Session :=
  match e with
  | Play index => handlePlay s index
  | ComputerTurn rnd => computerTurn rnd s
  | Reset => resetGame s
  | RestartAndSwap => restartAndSwap s
  | SetMode m => selectMode s m
  | SetComputerMark mark => chipClick s mark
  end.

Definition run (s : Session) (es : list Event) : Session :=
  foldl step s es.

(** The events that place a mark, as opposed to the reset family. *)
Definition isMove (e : Event) : bool :=
  match e with
  | Play _ | ComputerTurn _ => true
  | _ => false
  end.

(** The three cases of [statusMessage]: [Winner: ...], [It's a draw],
    [Turn: ...]. *)
Inductive Status : Set :=
  | Won (mark : Mark)
  | Draw
  | InProgress.

Definition status (s : Session) : Status :=
  match sessionWinner s with
  | Some w => Won w
  | None => if sessionIsDraw s then Draw else InProgress
  end.

(** ** The view *)

(** A mark as the text it is. *)
Definition markText (mark : Mark) : string :=
  match mark with X => "X" | O => "O" end.

(** [statusMessage], the label of the status pill:
    [`Winner: ${winner}`], ["It's a draw"] or [`Turn: ${currentPlayer}`]. *)
Definition statusMessage (s : Session) : string :=
  match sessionWinner s with
  | Some w => String.append "Winner: " (markText w)
  | None =>
      if sessionIsDraw s then "It's a draw"%string
      else String.append "Turn: " (markText (currentPlayer s))
  end.

(** The squares that the [Board] component renders, row by row; square [i]
    gets [onClick={() => onPlay(i)}], and these are the only calls of
    [handlePlay]. *)
Definition renderedSquares : list nat :=
  [0; 1; 2] ++ [3; 4; 5] ++ [6; 7; 8].

(** [winningLine?.includes(i)] in [renderSquare], as the truth value that
    picks the class [highlight] of the square ([undefined] when there is no
    line). *)
Definition highlight (winningLine : option Line) (i : nat) : bool :=
  match winningLine with
  | Some (a, b, c) => bool_decide (i ∈ [a; b; c])
  | None => false
  end.

(** The events the rendered page can produce: clicks on the nine squares,
    the timer of the AI turn effect, the two buttons, the mode toggle and
    the AI side chips. *)
Definition viewEvent (e : Event) : Prop :=
  match e with
  | Play index => index ∈ (Z.of_nat <$> renderedSquares)
  | _ => True
  end.

#[global] Instance viewEvent_dec e : Decision (viewEvent e).
Proof. destruct e; simpl; apply _. Defined.

(** ** Vocabulary of the statements *)

(** All three cells of [l] hold [mark]. *)
Definition lineHolds (board : list Cell) (mark : Mark) (l : Line) : Prop :=
  let '(a, b, c) := l in
  cell board a = Some mark ∧ cell board b = Some mark ∧ cell board c = Some mark.

(** How many cells hold [mark]. *)
Definition countMark (mark : Mark) (board : list Cell) : nat :=
  length (filter (λ c, c = Some mark) board).

(** The marks on the board agree with the turn: the two players have placed
    equally many marks, or the one not to move has placed one more. *)
Definition balanced (s : Session) : Prop :=
  let x := countMark X (elems (board s)) in
  let o := countMark O (elems (board s)) in
  x = o ∨ (x = o + 1 ∧ xIsNext s = false) ∨ (o = x + 1 ∧ xIsNext s = true).

(** A board of exactly nine slots and nothing else. *)
Definition nineCells (b : Board) : Prop :=
  length (elems b) = 9 ∧ props b = ∅.

(** A winner, if there is one, is the player who has just moved. *)
Definition lastMoverWins (s : Session) : Prop :=
  ∀ mark, sessionWinner s = Some mark → currentPlayer s = opponent mark.

(** How many events of a run change the state. *)
Fixpoint changes (s : Session) (es : list Event) : nat :=
  match es with
  | [] => 0
  | e :: es' =>
      (if decide (step s e = s) then 0 else 1) + changes (step s e) es'
  end.

(** ** Sample positions *)

Definition cellsOf (b : list Cell) : Board := {| elems := b; props := ∅ |}.

(** X holds squares 0 and 1, O holds 3 and 4: either side completes a row
    with one more mark. *)
Definition twoRows : list Cell :=
  [ Some X; Some X; None;
    Some O; Some O; None;
    None;   None;   None ].

(** X threatens the top row; O has no line of two. *)
Definition xThreat : list Cell :=
  [ Some X; Some X; None;
    None;   Some O; None;
    None;   None;   None ].

(** X has completed the top row. *)
Definition xWonTop : list Cell :=
  [ Some X; Some X; Some X;
    Some O; Some O; None;
    None;   None;   None ].

(** A full board without three in a row. *)
Definition drawn : list Cell :=
  [ Some X; Some O; Some X;
    Some X; Some O; Some O;
    Some O; Some X; Some X ].

(** X sits on the centre, the rest is empty. *)
Definition centreTaken : list Cell :=
  [ None; None;   None;
    None; Some X; None;
    None; None;   None ].

(** Two players at one screen, O to move on [xThreat]. *)
Definition midGame : Session :=
  {| mode := PVP; board := cellsOf xThreat; xIsNext := false; aiPlays := O |}.

(** The same with the game won by X. *)
Definition wonGame : Session :=
  {| mode := PVP; board := cellsOf xWonTop; xIsNext := false; aiPlays := O |}.

(** The computer, playing O, is to move on the empty board. *)
Definition aiToOpen : Session :=
  {| mode := AI; board := emptyBoard; xIsNext := false; aiPlays := O |}.

(** The same, but X has meanwhile taken the centre. *)
Definition aiOvertaken : Session :=
  {| mode := AI; board := cellsOf centreTaken; xIsNext := false; aiPlays := O |}.

(** X can complete the top row at 2 or the left column at 6; O cannot
    complete anything. *)
Definition twoWins : list Cell :=
  [ Some X; Some X; None;
    Some X; Some O; Some O;
    None;   Some O; None ].

(** The centre and the corners are taken, nobody threatens anything, and
    the sides 3 and 5 are left. *)
Definition sidesLeft : list Cell :=
  [ Some X; Some O; Some X;
    None;   Some X; None;
    Some O; Some X; Some O ].

(** The computer, playing O, is to move on [twoRows]. *)
Definition aiCanWin : Session :=
  {| mode := AI; board := cellsOf twoRows; xIsNext := false; aiPlays := O |}.

(** * Properties *)

(** ** The win detector *)

Lemma lineWins_true board l :
  lineWins board l = true ↔ ∃ mark, lineHolds board mark l.
Proof.
  destruct l as [[a b] c]. unfold lineWins, lineHolds.
  rewrite !andb_true_iff, !bool_decide_eq_true. split.
  - intros [[Ha Hb] Hc]. destruct (cell board a) as [mark|] eqn:E; [|done].
    exists mark. by rewrite <- Hb, <- Hc.
  - intros (mark & -> & -> & ->). done.
Qed.

Lemma lineWins_false board l :
  lineWins board l = false ↔ ∀ mark, ¬ lineHolds board mark l.
Proof.
  rewrite <- not_true_iff_false, lineWins_true. split.
  - intros Hn mark Hl. apply Hn. by exists mark.
  - intros Hn [mark Hl]. by apply (Hn mark).
Qed.

Lemma scanLines_hit lines board mark l :
  scanLines lines board = {| winner := Some mark; line := Some l |} ↔
  ∃ pre post, lines = pre ++ l :: post ∧ lineHolds board mark l
              ∧ Forall (λ l', lineWins board l' = false) pre.
Proof.
  induction lines as [|[[a b] c] rest IH]; cbn [scanLines].
  - split; [done|]. intros (pre & post & E & _). by destruct pre.
  - destruct (lineWins board (a, b, c)) eqn:W.
    + split.
      * intros [= Ha <-]. exists [], rest. split; [done|]. split; [|constructor].
        apply lineWins_true in W as (mark' & Hm). unfold lineHolds in *.
        destruct Hm as (Ha' & Hb & Hc). rewrite Ha in Ha'. by simplify_eq.
      * intros (pre & post & E & Hl & Hpre). destruct pre as [|p pre]; simpl in E.
        -- injection E as <- _. by destruct Hl as (-> & _).
        -- injection E as <- _. apply Forall_cons in Hpre as [Hp _]. congruence.
    + rewrite IH. split.
      * intros (pre & post & -> & Hl & Hpre). exists ((a, b, c) :: pre), post.
        split; [done|]. split; [done|]. by constructor.
      * intros (pre & post & E & Hl & Hpre). destruct pre as [|p pre]; simpl in E.
        -- injection E as <-. apply lineWins_false with (mark := mark) in W. done.
        -- injection E as <- ->. apply Forall_cons in Hpre as [_ Hpre].
           by exists pre, post.
Qed.

Lemma scanLines_miss lines board :
  scanLines lines board = {| winner := None; line := None |} ↔
  Forall (λ l, lineWins board l = false) lines.
Proof.
  induction lines as [|[[a b] c] rest IH]; cbn [scanLines].
  - split; [constructor|done].
  - destruct (lineWins board (a, b, c)) eqn:W.
    + split; [done|]. intros [? _]%Forall_cons. congruence.
    + rewrite IH, Forall_cons. tauto.
Qed.

Lemma scanLines_shape lines board :
  scanLines lines board = {| winner := None; line := None |}
  ∨ ∃ mark l, scanLines lines board = {| winner := Some mark; line := Some l |}.
Proof.
  induction lines as [|[[a b] c] rest IH]; cbn [scanLines]; [by left|].
  destruct (lineWins board (a, b, c)) eqn:W; [|done].
  right. apply lineWins_true in W as (mark & -> & _). by exists mark, (a, b, c).
Qed.

(** C1.  For a 9-cell board, [calculateWinner] returns the winner [mark]
    with the line [l] exactly when [l] is the first of the eight [LINES],
    in their order of rows, columns, diagonals, whose three cells all hold
    a mark, and [mark] is that mark; it returns no winner exactly when no
    line has its three cells holding the same mark; it returns nothing else,
    so there is a winner exactly when some line is so filled. *)
Theorem calculateWinner_first_line (board : list Cell) :
  length board = 9 →
  LINES = [ (0, 1, 2); (3, 4, 5); (6, 7, 8);
            (0, 3, 6); (1, 4, 7); (2, 5, 8);
            (0, 4, 8); (2, 4, 6) ]
  ∧ (∀ mark l,
       calculateWinner board = {| winner := Some mark; line := Some l |} ↔
       ∃ pre post, LINES = pre ++ l :: post ∧ lineHolds board mark l
                   ∧ ∀ l' mark', l' ∈ pre → ¬ lineHolds board mark' l')
  ∧ (calculateWinner board = {| winner := None; line := None |} ↔
       ∀ l mark, l ∈ LINES → ¬ lineHolds board mark l)
  ∧ (calculateWinner board = {| winner := None; line := None |}
     ∨ ∃ mark l, calculateWinner board = {| winner := Some mark; line := Some l |})
  ∧ (∀ mark, winner (calculateWinner board) = Some mark →
       ∃ l, l ∈ LINES ∧ lineHolds board mark l)
  ∧ (is_Some (winner (calculateWinner board)) ↔
       ∃ l mark, l ∈ LINES ∧ lineHolds board mark l).
Proof.
  intros _. unfold calculateWinner.
  assert (Hhit : ∀ mark l,
    scanLines LINES board = {| winner := Some mark; line := Some l |} ↔
    ∃ pre post, LINES = pre ++ l :: post ∧ lineHolds board mark l
                ∧ ∀ l' mark', l' ∈ pre → ¬ lineHolds board mark' l').
  { intros mark l. rewrite scanLines_hit.
    do 2 (apply exist_proper; intros ?). rewrite Forall_forall.
    setoid_rewrite lineWins_false. firstorder. }
  assert (Hmiss :
    scanLines LINES board = {| winner := None; line := None |} ↔
    ∀ l mark, l ∈ LINES → ¬ lineHolds board mark l).
  { rewrite scanLines_miss, Forall_forall. setoid_rewrite lineWins_false.
    firstorder. }
  assert (Hwin : ∀ mark, winner (scanLines LINES board) = Some mark →
    ∃ l, l ∈ LINES ∧ lineHolds board mark l).
  { intros mark Hw.
    destruct (scanLines_shape LINES board) as [E|(mark' & l & E)];
      rewrite E in Hw; simplify_eq/=.
    apply Hhit in E as (pre & post & E & Hl & _). exists l. split; [|done].
    rewrite E, elem_of_app, elem_of_cons. auto. }
  split; [done|]. split; [done|]. split; [done|].
  split; [apply scanLines_shape|]. split; [done|]. split.
  - intros [mark Hw]. apply Hwin in Hw as (l & ? & ?). by exists l, mark.
  - intros (l & mark & Hin & Hl).
    destruct (scanLines_shape LINES board) as [E|(mark' & l' & E)].
    + destruct Hmiss as [Hm _]. by destruct (Hm E l mark).
    + rewrite E. by eexists.
Qed.

(** ** Available moves *)

Lemma elem_of_availableMoves board m :
  m ∈ availableMoves board ↔ m < length board ∧ cell board m = None.
Proof.
  unfold availableMoves. rewrite list_elem_of_filter, elem_of_seq.
  destruct (cell board m); simpl; split; intros []; split; done || lia.
Qed.

Lemma availableMoves_nil board :
  availableMoves board = [] ↔ ∀ i, i < length board → is_Some (cell board i).
Proof.
  split.
  - intros E i Hi. destruct (cell board i) eqn:C; [by eexists|].
    assert (i ∈ availableMoves board) as Hin by by apply elem_of_availableMoves.
    rewrite E in Hin. by apply elem_of_nil in Hin.
  - intros H. apply elem_of_nil_inv. intros m [Hm C]%elem_of_availableMoves.
    destruct (H m Hm) as [mark E]. congruence.
Qed.

Lemma winner_None_iff board :
  winner (calculateWinner board) = None ↔
  calculateWinner board = {| winner := None; line := None |}.
Proof.
  unfold calculateWinner.
  destruct (scanLines_shape LINES board) as [E|(mark & l & E)]; by rewrite E.
Qed.

(** C5.  For a 9-cell board, [isDraw] holds exactly when [calculateWinner]
    reports no winner and no cell is empty, that is, when [availableMoves]
    is the empty list. *)
Theorem isDraw_iff_full_without_winner (board : list Cell) :
  length board = 9 →
  (isDraw board = true ↔
     calculateWinner board = {| winner := None; line := None |}
     ∧ ∀ i, i < 9 → is_Some (cell board i))
  ∧ (isDraw board = true ↔
     calculateWinner board = {| winner := None; line := None |}
     ∧ availableMoves board = []).
Proof.
  intros Hlen.
  assert (H : isDraw board = true ↔
     calculateWinner board = {| winner := None; line := None |}
     ∧ availableMoves board = []).
  { unfold isDraw. rewrite andb_true_iff, bool_decide_eq_true, <- winner_None_iff.
    rewrite negb_true_iff. split.
    - intros [Hw Hm]. split; [by destruct (winner _)|by apply nil_length_inv].
    - intros [-> ->]. done. }
  split; [|done]. rewrite H, availableMoves_nil, Hlen. done.
Qed.

(** ** The opponent *)

Lemma firstWinning_Some board mark moves m :
  firstWinning board mark moves = Some m →
  m ∈ moves ∧ winsAt board mark m.
Proof.
  unfold firstWinning. destruct (list_find _ moves) as [[i m']|] eqn:E; [|done].
  intros [= <-]. apply list_find_Some in E as (Hi & Hw & _).
  split; [by eapply list_elem_of_lookup_2|done].
Qed.

Lemma firstWinning_None board mark moves :
  firstWinning board mark moves = None ↔
  ∀ m, m ∈ moves → ¬ winsAt board mark m.
Proof.
  unfold firstWinning. rewrite fmap_None, list_find_None, Forall_forall. done.
Qed.

Lemma firstWinning_unique board mark moves m :
  m ∈ moves → winsAt board mark m →
  (∀ m', m' ∈ moves → winsAt board mark m' → m' = m) →
  firstWinning board mark moves = Some m.
Proof.
  intros Hin Hw Huniq.
  destruct (firstWinning board mark moves) as [m'|] eqn:E.
  - apply firstWinning_Some in E as [Hin' Hw']. f_equal. by apply Huniq.
  - rewrite firstWinning_None in E. by destruct (E m Hin).
Qed.

Lemma emptyAmong_pick board candidates rnd m :
  emptyAmong board candidates !! (rnd mod length (emptyAmong board candidates))
    = Some m →
  m ∈ candidates ∧ cell board m = None.
Proof.
  intros H%list_elem_of_lookup_2. unfold emptyAmong in H.
  by apply list_elem_of_filter in H as [? ?].
Qed.

Lemma emptyAmong_pick_is_Some board candidates rnd :
  length (emptyAmong board candidates) ≠ 0 →
  is_Some (emptyAmong board candidates
             !! (rnd mod length (emptyAmong board candidates))).
Proof.
  intros H. apply lookup_lt_is_Some. by apply Nat.mod_upper_bound.
Qed.

(** C2.  On a 9-cell board and for either mark, [aiMove] returns [null]
    exactly when [availableMoves] is empty; any index it returns is a
    member of [availableMoves], an empty cell of the board; and when
    [availableMoves] is not empty it does return an index. *)
Theorem aiMove_null_or_available (rnd : nat) (board : list Cell) (aiPlayer : Mark) :
  length board = 9 →
  (aiMove rnd board aiPlayer = None ↔ availableMoves board = [])
  ∧ (∀ m, aiMove rnd board aiPlayer = Some m →
       m ∈ availableMoves board ∧ m < 9 ∧ cell board m = None)
  ∧ (availableMoves board ≠ [] →
       ∃ m, aiMove rnd board aiPlayer = Some m ∧ m ∈ availableMoves board).
Proof.
  intros Hlen.
  assert (Hmem : ∀ m, aiMove rnd board aiPlayer = Some m →
                      m ∈ availableMoves board).
  { intros m. unfold aiMove. case_decide as Hn; [done|].
    destruct (firstWinning board aiPlayer _) as [w|] eqn:Ew.
    { intros [= <-]. by apply firstWinning_Some in Ew as [? _]. }
    destruct (firstWinning board (opponent aiPlayer) _) as [w|] eqn:Eb.
    { intros [= <-]. by apply firstWinning_Some in Eb as [? _]. }
    case_decide as Hc.
    { intros [= <-]. apply elem_of_availableMoves. split; [lia|done]. }
    case_decide as Hcorners.
    { intros [Hin Hnone]%emptyAmong_pick. apply elem_of_availableMoves.
      split; [|done]. rewrite Hlen.
      repeat (apply elem_of_cons in Hin as [->|Hin]; [lia|]).
      by apply elem_of_nil in Hin. }
    case_decide as Hsides.
    { intros [Hin Hnone]%emptyAmong_pick. apply elem_of_availableMoves.
      split; [|done]. rewrite Hlen.
      repeat (apply elem_of_cons in Hin as [->|Hin]; [lia|]).
      by apply elem_of_nil in Hin. }
    rewrite head_lookup. apply list_elem_of_lookup_2. }
  assert (Hnull : aiMove rnd board aiPlayer = None ↔ availableMoves board = []).
  { split.
    - unfold aiMove. case_decide as Hn; [intros _; by apply nil_length_inv|].
      destruct (firstWinning board aiPlayer _); [done|].
      destruct (firstWinning board (opponent aiPlayer) _); [done|].
      case_decide; [done|].
      case_decide as Hcorners.
      { intros E. destruct (emptyAmong_pick_is_Some board [0; 2; 6; 8] rnd Hcorners)
          as [? E']. congruence. }
      case_decide as Hsides.
      { intros E. destruct (emptyAmong_pick_is_Some board [1; 3; 5; 7] rnd Hsides)
          as [? E']. congruence. }
      intros E. destruct (availableMoves board); [done|discriminate].
    - intros E. unfold aiMove. rewrite E. done. }
  split; [done|]. split.
  - intros m Hm. pose proof (Hmem m Hm) as Hin. split; [done|].
    apply elem_of_availableMoves in Hin as [? ?]. split; [lia|done].
  - intros Hne. destruct (aiMove rnd board aiPlayer) as [m|] eqn:E.
    + exists m. split; [done|]. by apply Hmem.
    + destruct Hne. by apply Hnull.
Qed.

(** C3.  If exactly one available move [m] is such that, with the
    computer's mark placed there, [calculateWinner] reports the computer's
    mark, then [aiMove] returns [m]. *)
Theorem aiMove_takes_the_win (rnd : nat) (board : list Cell) (aiPlayer : Mark)
    (m : nat) :
  m ∈ availableMoves board →
  winsAt board aiPlayer m →
  (∀ m', m' ∈ availableMoves board → winsAt board aiPlayer m' → m' = m) →
  aiMove rnd board aiPlayer = Some m.
Proof.
  intros Hin Hw Huniq. unfold aiMove.
  case_decide as Hn.
  { apply nil_length_inv in Hn. rewrite Hn in Hin. by apply elem_of_nil in Hin. }
  by rewrite (firstWinning_unique board aiPlayer _ m).
Qed.

(** C4.  If no available move makes the computer's mark win, and exactly
    one available move [m] is such that, with the human's mark placed
    there, [calculateWinner] reports the human's mark, then [aiMove]
    returns [m], the blocking cell. *)
Theorem aiMove_blocks (rnd : nat) (board : list Cell) (aiPlayer : Mark)
    (m : nat) :
  (∀ m', m' ∈ availableMoves board → ¬ winsAt board aiPlayer m') →
  m ∈ availableMoves board →
  winsAt board (opponent aiPlayer) m →
  (∀ m', m' ∈ availableMoves board → winsAt board (opponent aiPlayer) m' →
         m' = m) →
  aiMove rnd board aiPlayer = Some m.
Proof.
  intros Hnowin Hin Hw Huniq. unfold aiMove.
  case_decide as Hn.
  { apply nil_length_inv in Hn. rewrite Hn in Hin. by apply elem_of_nil in Hin. }
  apply firstWinning_None in Hnowin. rewrite Hnowin.
  by rewrite (firstWinning_unique board (opponent aiPlayer) _ m).
Qed.

(** ** Array writes *)

Lemma cell_setAt_eq board i v : cell (setAt board i v) i = Some v.
Proof.
  unfold cell, setAt. case_decide as Hi.
  - by rewrite list_lookup_insert_eq.
  - rewrite lookup_app_r by lia. rewrite lookup_app_r; rewrite length_replicate.
    + by replace (i - length board - (i - length board)) with 0 by lia.
    + lia.
Qed.

Lemma cell_setAt_ne board i j v :
  i ≠ j → j < length board → cell (setAt board i v) j = cell board j.
Proof.
  intros Hne Hj. unfold cell, setAt. case_decide as Hi.
  - by rewrite list_lookup_insert_ne.
  - by rewrite lookup_app_l.
Qed.

Lemma length_setAt board i v :
  length (setAt board i v) = max (length board) (i + 1).
Proof.
  unfold setAt. case_decide as Hi.
  - rewrite length_insert. lia.
  - rewrite !length_app, length_replicate. simpl. lia.
Qed.

Lemma boardGet_boardSet_eq b i v : boardGet (boardSet b i v) i = Some v.
Proof.
  unfold boardGet, boardSet. destruct (isArrayIndex i) eqn:E; simpl.
  - apply cell_setAt_eq.
  - apply lookup_insert_eq.
Qed.

(** ** The session *)

Lemma gameOver_status s : gameOver s = false ↔ status s = InProgress.
Proof.
  unfold gameOver, status.
  destruct (sessionWinner s), (sessionIsDraw s); simpl; split; done.
Qed.

Lemma handlePlay_gameOver s index : gameOver s = true → handlePlay s index = s.
Proof. intros H. unfold handlePlay. by rewrite H. Qed.

Lemma computerTurn_gameOver rnd s : gameOver s = true → computerTurn rnd s = s.
Proof.
  intros H. unfold computerTurn, aiTurnDue. rewrite H.
  by destruct (negb (bool_decide (mode s = AI))).
Qed.

(** C6.  While the game is in progress, [handlePlay] on an index from 0 to 8
    whose cell already holds a mark changes nothing: the board and the
    player to move stay as they were (and so does the rest of the state). *)
Theorem handlePlay_occupied_noop (s : Session) (index : Z) :
  status s = InProgress →
  (0 ≤ index ≤ 8)%Z →
  is_Some (boardGet (board s) index) →
  board (handlePlay s index) = board s
  ∧ xIsNext (handlePlay s index) = xIsNext s
  ∧ handlePlay s index = s.
Proof.
  intros _ _ [mark Hocc].
  assert (handlePlay s index = s) as ->; [|done].
  unfold handlePlay. rewrite Hocc. simpl. by destruct (gameOver s).
Qed.

(** C8.  Once the game is won or drawn, neither [handlePlay], whatever the
    index, nor the computer's turn changes anything in the session state;
    so the state stays as it is through any run of such events, up to the
    next event of the reset family. *)
Theorem terminal_ignores_moves (s : Session) :
  status s ≠ InProgress →
  (∀ index, handlePlay s index = s)
  ∧ (∀ rnd, computerTurn rnd s = s)
  ∧ (∀ es, Forall (λ e, isMove e = true) es → run s es = s).
Proof.
  intros Hterm.
  assert (gameOver s = true) as Hover.
  { destruct (gameOver s) eqn:E; [done|]. by apply gameOver_status in E. }
  split; [intros; by apply handlePlay_gameOver|].
  split; [intros; by apply computerTurn_gameOver|].
  intros es Hes. unfold run. induction Hes as [|e es He _ IH]; [done|].
  simpl. destruct e; try discriminate; simpl.
  - by rewrite handlePlay_gameOver.
  - by rewrite computerTurn_gameOver.
Qed.

(** C9.  A click on the AI side chip of the mark the computer already plays
    changes nothing: [toggleAiSide] is not called, so [aiPlays], the board
    and the player to move are as before and no reset takes place. *)
Theorem chipClick_current_noop (s : Session) :
  chipClick s (aiPlays s) = s
  ∧ step s (SetComputerMark (aiPlays s)) = s
  ∧ aiPlays (chipClick s (aiPlays s)) = aiPlays s
  ∧ board (chipClick s (aiPlays s)) = board s
  ∧ xIsNext (chipClick s (aiPlays s)) = xIsNext s.
Proof.
  assert (chipClick s (aiPlays s) = s) as E.
  { unfold chipClick. by case_decide. }
  simpl. by rewrite E.
Qed.

(** C10.  In the timer callback of the AI turn effect, when the cell chosen
    by [aiMove] already holds a mark in the board the update is applied to,
    that board is returned as it is (the cell is not overwritten), and the
    player to move is flipped all the same. *)
Theorem aiTimeout_occupied_keeps_board_flips_turn
    (rnd : nat) (shown s : Session) (move : nat) :
  aiMove rnd (elems (board shown)) (aiPlays shown) = Some move →
  is_Some (boardGet (board s) (Z.of_nat move)) →
  board (aiTimeout rnd shown s) = board s
  ∧ boardGet (board (aiTimeout rnd shown s)) (Z.of_nat move)
    = boardGet (board s) (Z.of_nat move)
  ∧ xIsNext (aiTimeout rnd shown s) = negb (xIsNext s).
Proof.
  intros Hmove [mark Hocc]. unfold aiTimeout. rewrite Hmove. simpl.
  by rewrite Hocc.
Qed.

Lemma handlePlay_rejected s index :
  gameOver s = true ∨ is_Some (boardGet (board s) index)
  ∨ (mode s = AI ∧ currentPlayer s = aiPlays s) →
  handlePlay s index = s.
Proof.
  unfold handlePlay. intros [->|[[mark ->]|[Hm Hc]]]; [done| |].
  - by destruct (gameOver s).
  - rewrite !bool_decide_eq_true_2 by done. simpl.
    by destruct (gameOver s), (truthy (boardGet (board s) index)).
Qed.

Lemma handlePlay_accepted s index :
  gameOver s = false → boardGet (board s) index = None →
  ¬ (mode s = AI ∧ currentPlayer s = aiPlays s) →
  handlePlay s index =
    {| mode := mode s;
       board := boardSet (spread (board s)) index (currentPlayer s);
       xIsNext := negb (xIsNext s);
       aiPlays := aiPlays s |}.
Proof.
  intros Hover Hfree Hturn. unfold handlePlay. rewrite Hover, Hfree. simpl.
  destruct (bool_decide (mode s = AI)) eqn:Em; [|done].
  destruct (bool_decide (currentPlayer s = aiPlays s)) eqn:Ec; [|done].
  apply bool_decide_eq_true in Em, Ec. by destruct Hturn.
Qed.

(** C7, the claim as written fails: [handlePlay] does not check the range
    of its index.  In the state of the first render, [handlePlay(9)] is
    accepted: the array grows to ten cells and the turn passes to O. *)
Lemma handlePlay_index_9_accepted :
  ¬ (0 ≤ 9 ≤ 8)%Z
  ∧ length (elems (board initialSession)) = 9
  ∧ board (handlePlay initialSession 9) ≠ board initialSession
  ∧ length (elems (board (handlePlay initialSession 9))) = 10
  ∧ boardGet (board (handlePlay initialSession 9)) 9 = Some X
  ∧ xIsNext initialSession = true
  ∧ xIsNext (handlePlay initialSession 9) = false.
Proof.
  split; [lia|]. split; [done|]. split; [|by vm_compute].
  intros E. apply (f_equal (λ b, length (elems b))) in E. vm_compute in E.
  discriminate.
Qed.

(** C7, amended.  [handlePlay] has no range check and raises nothing (it is
    a total function of the state and the index).  On a 9-cell board and for
    an integer index outside 0 to 8 it keeps [mode], [aiPlays] and the
    cells 0 to 8.  It changes nothing when the game is over, when
    [board[index]] already holds a mark, or when in AI mode it is the
    computer's turn.  Otherwise the move is applied as for any other index:
    the player to move is flipped and its mark is stored at [board[index]],
    the array growing to [index + 1] cells when [index] is an array index
    (9 to 2^32 - 2) and keeping its 9 cells for any other integer. *)
Theorem handlePlay_unchecked_index (s : Session) (index : Z) :
  length (elems (board s)) = 9 →
  ¬ (0 ≤ index ≤ 8)%Z →
  mode (handlePlay s index) = mode s
  ∧ aiPlays (handlePlay s index) = aiPlays s
  ∧ (∀ i, i < 9 →
       cell (elems (board (handlePlay s index))) i = cell (elems (board s)) i)
  ∧ (gameOver s = true ∨ is_Some (boardGet (board s) index)
     ∨ (mode s = AI ∧ currentPlayer s = aiPlays s) →
     handlePlay s index = s)
  ∧ (gameOver s = false → boardGet (board s) index = None →
     ¬ (mode s = AI ∧ currentPlayer s = aiPlays s) →
     xIsNext (handlePlay s index) = negb (xIsNext s)
     ∧ boardGet (board (handlePlay s index)) index = Some (currentPlayer s)
     ∧ length (elems (board (handlePlay s index)))
       = if isArrayIndex index then Z.to_nat index + 1 else 9).
Proof.
  intros Hlen Hrange.
  assert (Hacc : gameOver s = false → boardGet (board s) index = None →
    ¬ (mode s = AI ∧ currentPlayer s = aiPlays s) →
    (∀ i, i < 9 →
       cell (elems (board (handlePlay s index))) i = cell (elems (board s)) i)
    ∧ length (elems (board (handlePlay s index)))
      = if isArrayIndex index then Z.to_nat index + 1 else 9).
  { intros Hover Hfree Hturn. rewrite handlePlay_accepted by done. simpl.
    unfold boardSet. destruct (isArrayIndex index) eqn:Ei; simpl; [|done].
    apply bool_decide_eq_true in Ei. split.
    - intros i Hi. apply cell_setAt_ne; lia.
    - rewrite length_setAt. lia. }
  destruct (gameOver s) eqn:Hover.
  { rewrite handlePlay_rejected by auto. repeat split; auto; done. }
  destruct (boardGet (board s) index) as [mark|] eqn:Hfree.
  { rewrite handlePlay_rejected by (rewrite Hfree; eauto).
    repeat split; auto; done. }
  destruct (decide (mode s = AI ∧ currentPlayer s = aiPlays s)) as [Hturn|Hturn].
  { rewrite handlePlay_rejected by auto. repeat split; auto; done. }
  destruct (Hacc eq_refl eq_refl Hturn) as [Hcells Hgrow].
  split; [by rewrite handlePlay_accepted|].
  split; [by rewrite handlePlay_accepted|].
  split; [done|]. split; [intros [?|[[? ?]|?]]; done|].
  intros _ _ _. split; [by rewrite handlePlay_accepted|]. split; [|done].
  rewrite handlePlay_accepted by done. simpl. apply boardGet_boardSet_eq.
Qed.

(** * The functions at work *)

(** The scenario of the game X 0, O 4, X 1, O 5, X 2 between two players:
    X wins with the top row, and further clicks are ignored. *)
Example top_row_game :
  let s := run (selectMode initialSession PVP)
               [Play 0; Play 4; Play 1; Play 5; Play 2] in
  calculateWinner (elems (board s))
    = {| winner := Some X; line := Some (0, 1, 2) |}
  ∧ status s = Won X
  ∧ run s [Play 3; Play 8] = s.
Proof. by vm_compute. Qed.

Example empty_board_has_no_winner :
  calculateWinner (elems emptyBoard) = {| winner := None; line := None |}
  ∧ isDraw (elems emptyBoard) = false
  ∧ availableMoves (elems emptyBoard) = [0; 1; 2; 3; 4; 5; 6; 7; 8].
Proof. by vm_compute. Qed.

Example drawn_board_is_draw :
  status {| mode := PVP; board := cellsOf drawn; xIsNext := false; aiPlays := O |}
  = Draw.
Proof. by vm_compute. Qed.

(** With two lines filled by different marks the earlier line decides. *)
Example earlier_line_decides :
  calculateWinner [ Some O; None; Some X;
                    Some O; None; Some X;
                    Some O; None; Some X ]
  = {| winner := Some O; line := Some (0, 3, 6) |}.
Proof. by vm_compute. Qed.

(** Winning comes before blocking, blocking before the centre, the centre
    before the corners. *)
Example aiMove_priorities :
  aiMove 0 twoRows X = Some 2
  ∧ aiMove 0 twoRows O = Some 5
  ∧ aiMove 0 xThreat O = Some 2
  ∧ aiMove 7 (elems emptyBoard) O = Some 4
  ∧ aiMove 0 centreTaken O = Some 0
  ∧ aiMove 7 centreTaken O = Some 8
  ∧ aiMove 0 drawn O = None.
Proof. by vm_compute. Qed.

(** An index that is not an array index lands in a property of the array
    object: the nine cells stay, the turn passes, a second click on the same
    key is ignored, and the next accepted move drops the property. *)
Example negative_index_is_a_property :
  let s0 := selectMode initialSession PVP in
  let s1 := handlePlay s0 (-1) in
  elems (board s1) = elems (board s0)
  ∧ boardGet (board s1) (-1) = Some X
  ∧ xIsNext s1 = false
  ∧ handlePlay s1 (-1) = s1
  ∧ boardGet (board (handlePlay s1 0)) (-1) = None.
Proof. by vm_compute. Qed.

Example restartAndSwap_twice :
  xIsNext (run initialSession [RestartAndSwap; RestartAndSwap])
  = xIsNext initialSession.
Proof. reflexivity. Qed.

(** A click while it is the computer's turn is ignored; the computer then
    takes the centre. *)
Example computer_opens :
  handlePlay aiToOpen 0 = aiToOpen
  ∧ elems (board (computerTurn 0 aiToOpen))
    = [ None; None; None; None; Some O; None; None; None; None ]
  ∧ xIsNext (computerTurn 0 aiToOpen) = true.
Proof. by vm_compute. Qed.

(** * Instances of the theorems *)

Lemma calculateWinner_first_line_witness :
  length xWonTop = 9 ∧ ∃ l, l ∈ LINES ∧ lineHolds xWonTop X l.
Proof.
  split; [reflexivity|].
  destruct (calculateWinner_first_line xWonTop eq_refl) as (_ & _ & _ & _ & Hw & _).
  apply Hw. reflexivity.
Defined.

Lemma aiMove_null_or_available_witness :
  length twoRows = 9
  ∧ ∃ m, aiMove 0 twoRows X = Some m ∧ m ∈ availableMoves twoRows.
Proof.
  split; [reflexivity|].
  destruct (aiMove_null_or_available 0 twoRows X eq_refl) as (_ & _ & Hsome).
  apply Hsome. vm_compute. discriminate.
Defined.

Lemma aiMove_takes_the_win_witness :
  2 ∈ availableMoves twoRows ∧ winsAt twoRows X 2 ∧ aiMove 0 twoRows X = Some 2.
Proof.
  assert (Hin : 2 ∈ availableMoves twoRows).
  { apply elem_of_availableMoves. split; [simpl; lia|reflexivity]. }
  split; [exact Hin|]. split; [reflexivity|].
  apply (aiMove_takes_the_win 0 twoRows X 2 Hin); [reflexivity|].
  intros m' [Hlt _]%elem_of_availableMoves Hw. simpl in Hlt.
  do 9 (destruct m' as [|m'];
        [first [reflexivity | vm_compute in Hw; discriminate]|]).
  lia.
Defined.

Lemma aiMove_blocks_witness :
  2 ∈ availableMoves xThreat ∧ winsAt xThreat X 2 ∧ aiMove 0 xThreat O = Some 2.
Proof.
  assert (Hin : 2 ∈ availableMoves xThreat).
  { apply elem_of_availableMoves. split; [simpl; lia|reflexivity]. }
  split; [exact Hin|]. split; [reflexivity|].
  apply (aiMove_blocks 0 xThreat O 2); [|exact Hin|reflexivity|].
  - intros m' [Hlt _]%elem_of_availableMoves Hw. simpl in Hlt.
    do 9 (destruct m' as [|m']; [vm_compute in Hw; discriminate|]).
    lia.
  - intros m' [Hlt _]%elem_of_availableMoves Hw. simpl in Hlt.
    do 9 (destruct m' as [|m'];
          [first [reflexivity | vm_compute in Hw; discriminate]|]).
    lia.
Defined.

Lemma isDraw_iff_full_without_winner_witness :
  length drawn = 9
  ∧ calculateWinner drawn = {| winner := None; line := None |}
  ∧ availableMoves drawn = [].
Proof.
  split; [reflexivity|].
  destruct (isDraw_iff_full_without_winner drawn eq_refl) as [_ [Hd _]].
  apply Hd. reflexivity.
Defined.

Lemma handlePlay_occupied_noop_witness :
  status midGame = InProgress ∧ (0 ≤ 0 ≤ 8)%Z
  ∧ boardGet (board midGame) 0 = Some X
  ∧ handlePlay midGame 0 = midGame.
Proof.
  split; [reflexivity|]. split; [lia|]. split; [reflexivity|].
  apply (handlePlay_occupied_noop midGame 0); [reflexivity|lia|].
  exists X. reflexivity.
Defined.

Lemma handlePlay_unchecked_index_witness :
  length (elems (board initialSession)) = 9 ∧ ¬ (0 ≤ 9 ≤ 8)%Z
  ∧ xIsNext (handlePlay initialSession 9) = negb (xIsNext initialSession).
Proof.
  assert (Hout : ¬ (0 ≤ 9 ≤ 8)%Z) by lia.
  split; [reflexivity|]. split; [exact Hout|].
  destruct (handlePlay_unchecked_index initialSession 9 eq_refl Hout)
    as (_ & _ & _ & _ & Hacc).
  apply Hacc; [reflexivity|reflexivity|].
  intros [_ Hturn]. vm_compute in Hturn. discriminate.
Defined.

Lemma terminal_ignores_moves_witness :
  status wonGame = Won X
  ∧ run wonGame [Play 5; ComputerTurn 0; Play 9] = wonGame.
Proof.
  split; [reflexivity|].
  assert (Hterm : status wonGame ≠ InProgress).
  { intros E. vm_compute in E. discriminate. }
  destruct (terminal_ignores_moves wonGame Hterm) as (_ & _ & Hrun).
  apply Hrun. repeat constructor.
Defined.

Lemma aiTimeout_occupied_keeps_board_flips_turn_witness :
  aiMove 0 (elems (board aiToOpen)) (aiPlays aiToOpen) = Some 4
  ∧ boardGet (board aiOvertaken) 4 = Some X
  ∧ board (aiTimeout 0 aiToOpen aiOvertaken) = board aiOvertaken
  ∧ xIsNext (aiTimeout 0 aiToOpen aiOvertaken) = negb (xIsNext aiOvertaken).
Proof.
  split; [reflexivity|]. split; [reflexivity|].
  destruct (aiTimeout_occupied_keeps_board_flips_turn 0 aiToOpen aiOvertaken 4)
    as (Hb & _ & Hx); [reflexivity|by exists X|].
  split; [exact Hb|exact Hx].
Defined.

(** * Further properties *)

(** ** Available moves, counted *)

Lemma filter_seq_ascending (P : nat → Prop) `{!∀ i, Decision (P i)} j n :
  StronglySorted lt (filter P (seq j n)).
Proof.
  revert j. induction n as [|n IH]; intros j; simpl; [constructor|].
  rewrite filter_cons. destruct (decide (P j)); [|apply IH].
  apply StronglySorted_cons. split; [|apply IH].
  apply Forall_forall. intros i [_ Hi]%list_elem_of_filter.
  apply elem_of_seq in Hi. lia.
Qed.

Lemma filter_agree {A} (P Q : A → Prop)
    `{!∀ x, Decision (P x), !∀ x, Decision (Q x)} (l : list A) :
  (∀ x, x ∈ l → (P x ↔ Q x)) → filter P l = filter Q l.
Proof.
  induction l as [|a l IH]; intros Hag; [done|].
  rewrite !filter_cons.
  assert (filter P l = filter Q l) as ->.
  { apply IH. intros x Hx. apply Hag. by right. }
  destruct (decide (P a)) as [Hp|Hp], (decide (Q a)) as [Hq|Hq]; try done.
  - destruct Hq. apply Hag; [by left|done].
  - destruct Hp. apply Hag; [by left|done].
Qed.

Lemma availableMoves_snoc board c :
  availableMoves (board ++ [c])
  = availableMoves board ++ (if truthy c then [] else [length board]).
Proof.
  unfold availableMoves. rewrite length_app. simpl.
  rewrite Nat.add_1_r, seq_S, filter_app. simpl. f_equal.
  - apply filter_agree. intros i [_ Hi]%elem_of_seq. unfold cell.
    by rewrite lookup_app_l by lia.
  - assert (cell (board ++ [c]) (length board) = c) as Hc.
    { unfold cell. rewrite lookup_app_r by lia.
      by rewrite Nat.sub_diag. }
    rewrite filter_cons, Hc. by destruct (truthy c).
Qed.

Lemma countMark_snoc mark board c :
  countMark mark (board ++ [c])
  = countMark mark board + (if decide (c = Some mark) then 1 else 0).
Proof.
  unfold countMark. rewrite filter_app, length_app, filter_cons.
  by destruct (decide (c = Some mark)).
Qed.

(** X1.  [availableMoves] lists exactly the indices of the empty cells of
    the board, each once and in ascending order. *)
Theorem availableMoves_ascending_empty_cells (board : list Cell) :
  StronglySorted lt (availableMoves board)
  ∧ NoDup (availableMoves board)
  ∧ ∀ m, m ∈ availableMoves board ↔ m < length board ∧ cell board m = None.
Proof.
  split; [apply filter_seq_ascending|].
  split; [apply NoDup_filter, NoDup_seq|].
  intros m. apply elem_of_availableMoves.
Qed.

(** X2.  The available moves and the marks on the board add up to the
    number of cells: for a 9-cell board, [availableMoves(board).length]
    plus the number of X plus the number of O is 9. *)
Theorem availableMoves_count (board : list Cell) :
  length (availableMoves board) + countMark X board + countMark O board
  = length board.
Proof.
  induction board as [|c board IH] using rev_ind; [done|].
  rewrite availableMoves_snoc, !countMark_snoc, !length_app. simpl.
  destruct c as [[]|]; simpl; repeat case_decide; simplify_eq; simpl; lia.
Qed.

(** ** The order of the opponent's rules *)

Lemma ascending_lookup (l : list nat) i j x y :
  StronglySorted lt l → l !! i = Some x → l !! j = Some y → i < j → x < y.
Proof.
  intros Hs. revert i j. induction Hs as [|a l _ IH Hall]; intros i j Hi Hj Hlt.
  - done.
  - destruct j as [|j]; [lia|]. simpl in Hj. destruct i as [|i]; simpl in Hi.
    + injection Hi as ->. rewrite Forall_forall in Hall.
      apply Hall. by eapply list_elem_of_lookup_2.
    + apply (IH i j); [done|done|lia].
Qed.

Lemma firstWinning_least board mark moves w :
  StronglySorted lt moves →
  firstWinning board mark moves = Some w →
  ∀ m', m' ∈ moves → winsAt board mark m' → w ≤ m'.
Proof.
  intros Hs Hw m' Hin Hm'. unfold firstWinning in Hw.
  destruct (list_find _ moves) as [[i w']|] eqn:E; [|done].
  injection Hw as ->. apply list_find_Some in E as (Hi & _ & Hleast).
  apply list_elem_of_lookup in Hin as [j Hj].
  destruct (decide (j < i)) as [Hlt|Hge]; [by destruct (Hleast j m' Hj Hlt)|].
  destruct (decide (i = j)) as [->|Hne]; [simplify_eq; lia|].
  assert (w < m'); [|lia]. apply (ascending_lookup moves i j); [done..|lia].
Qed.

Lemma firstWinning_is_Some board mark moves m :
  m ∈ moves → winsAt board mark m → is_Some (firstWinning board mark moves).
Proof.
  intros Hin Hw. destruct (firstWinning board mark moves) eqn:E; [by eexists|].
  rewrite firstWinning_None in E. by destruct (E m Hin).
Qed.

Lemma availableMoves_length_ne_0 board m :
  m ∈ availableMoves board → length (availableMoves board) ≠ 0.
Proof. intros Hin Hn. apply nil_length_inv in Hn. rewrite Hn in Hin. by apply elem_of_nil in Hin. Qed.

(** What is left of [aiMove] when neither side can complete a line. *)
Lemma aiMove_without_threat rnd board aiPlayer :
  availableMoves board ≠ [] →
  (∀ m, m ∈ availableMoves board → ¬ winsAt board aiPlayer m) →
  (∀ m, m ∈ availableMoves board → ¬ winsAt board (opponent aiPlayer) m) →
  aiMove rnd board aiPlayer =
    if decide (cell board 4 = None) then Some 4 else
    let corners := emptyAmong board [0; 2; 6; 8] in
    if decide (length corners ≠ 0) then corners !! (rnd mod length corners) else
    let sides := emptyAmong board [1; 3; 5; 7] in
    if decide (length sides ≠ 0) then sides !! (rnd mod length sides) else
    head (availableMoves board).
Proof.
  intros Hne Hwin Hblock. unfold aiMove.
  case_decide as Hn; [by apply nil_length_inv in Hn|].
  apply firstWinning_None in Hwin, Hblock. by rewrite Hwin, Hblock.
Qed.

Lemma emptyAmong_reachable board candidates c :
  c ∈ emptyAmong board candidates →
  ∃ rnd, emptyAmong board candidates
           !! (rnd mod length (emptyAmong board candidates)) = Some c.
Proof.
  intros [i Hi]%list_elem_of_lookup. exists i.
  rewrite Nat.mod_small; [done|]. apply lookup_lt_is_Some. by eexists.
Qed.

(** X3.  When the computer can complete a line, [aiMove] returns the lowest
    available index at which it can, whatever the human threatens and
    whatever the draw. *)
Theorem aiMove_lowest_win (rnd : nat) (board : list Cell) (aiPlayer : Mark)
    (m : nat) :
  m ∈ availableMoves board →
  winsAt board aiPlayer m →
  ∃ w, aiMove rnd board aiPlayer = Some w
       ∧ w ∈ availableMoves board
       ∧ winsAt board aiPlayer w
       ∧ ∀ m', m' ∈ availableMoves board → winsAt board aiPlayer m' → w ≤ m'.
Proof.
  intros Hin Hw.
  destruct (firstWinning_is_Some board aiPlayer _ m Hin Hw) as [w E].
  exists w. unfold aiMove.
  case_decide as Hn; [by destruct (availableMoves_length_ne_0 board m)|].
  rewrite E. split; [done|].
  destruct (firstWinning_Some _ _ _ _ E) as [? ?]. split; [done|]. split; [done|].
  apply (firstWinning_least board aiPlayer _ w); [|done].
  apply filter_seq_ascending.
Qed.

(** X4.  When the computer cannot complete a line but the human could,
    [aiMove] returns the lowest available index at which the human could:
    blocking comes before the centre, the corners and the sides. *)
Theorem aiMove_lowest_block (rnd : nat) (board : list Cell) (aiPlayer : Mark)
    (m : nat) :
  (∀ m', m' ∈ availableMoves board → ¬ winsAt board aiPlayer m') →
  m ∈ availableMoves board →
  winsAt board (opponent aiPlayer) m →
  ∃ w, aiMove rnd board aiPlayer = Some w
       ∧ w ∈ availableMoves board
       ∧ winsAt board (opponent aiPlayer) w
       ∧ ∀ m', m' ∈ availableMoves board →
               winsAt board (opponent aiPlayer) m' → w ≤ m'.
Proof.
  intros Hnowin Hin Hw.
  destruct (firstWinning_is_Some board (opponent aiPlayer) _ m Hin Hw) as [w E].
  exists w. unfold aiMove.
  case_decide as Hn; [by destruct (availableMoves_length_ne_0 board m)|].
  apply firstWinning_None in Hnowin. rewrite Hnowin, E. split; [done|].
  destruct (firstWinning_Some _ _ _ _ E) as [? ?]. split; [done|]. split; [done|].
  apply (firstWinning_least board (opponent aiPlayer) _ w); [|done].
  apply filter_seq_ascending.
Qed.

(** X5.  When neither side can complete a line and the centre is
    available, [aiMove] returns the centre, index 4. *)
Theorem aiMove_takes_centre (rnd : nat) (board : list Cell) (aiPlayer : Mark) :
  (∀ m, m ∈ availableMoves board → ¬ winsAt board aiPlayer m) →
  (∀ m, m ∈ availableMoves board → ¬ winsAt board (opponent aiPlayer) m) →
  4 ∈ availableMoves board →
  aiMove rnd board aiPlayer = Some 4.
Proof.
  intros Hwin Hblock Hc. rewrite aiMove_without_threat; [|intros E|done..].
  - apply elem_of_availableMoves in Hc as [_ Hc]. by case_decide.
  - rewrite E in Hc. by apply elem_of_nil in Hc.
Qed.

(** X6.  When neither side can complete a line, the centre is taken and a
    corner is empty, [aiMove] returns an empty corner; and each empty corner
    is returned for some draw. *)
Theorem aiMove_takes_corner (board : list Cell) (aiPlayer : Mark) (c : nat) :
  (∀ m, m ∈ availableMoves board → ¬ winsAt board aiPlayer m) →
  (∀ m, m ∈ availableMoves board → ¬ winsAt board (opponent aiPlayer) m) →
  availableMoves board ≠ [] →
  cell board 4 ≠ None →
  c ∈ [0; 2; 6; 8] → cell board c = None →
  (∀ rnd, ∃ k, aiMove rnd board aiPlayer = Some k
               ∧ k ∈ [0; 2; 6; 8] ∧ cell board k = None)
  ∧ ∃ rnd, aiMove rnd board aiPlayer = Some c.
Proof.
  intros Hwin Hblock Hne Hcentre Hc Hfree.
  assert (Hin : c ∈ emptyAmong board [0; 2; 6; 8]).
  { unfold emptyAmong. by apply list_elem_of_filter. }
  assert (Hlen : length (emptyAmong board [0; 2; 6; 8]) ≠ 0).
  { intros E. apply nil_length_inv in E. rewrite E in Hin.
    by apply elem_of_nil in Hin. }
  assert (Hstage : ∀ rnd, aiMove rnd board aiPlayer =
    emptyAmong board [0; 2; 6; 8]
      !! (rnd mod length (emptyAmong board [0; 2; 6; 8]))).
  { intros rnd. rewrite aiMove_without_threat by done.
    rewrite decide_False by done. simpl. by rewrite decide_True by done. }
  split.
  - intros rnd. rewrite Hstage.
    destruct (emptyAmong_pick_is_Some board [0; 2; 6; 8] rnd Hlen) as [k Hk].
    exists k. split; [done|]. by apply emptyAmong_pick in Hk.
  - destruct (emptyAmong_reachable board [0; 2; 6; 8] c Hin) as [rnd Hr].
    exists rnd. by rewrite Hstage.
Qed.

(** X7.  When neither side can complete a line and the centre and the four
    corners are taken, [aiMove] returns an empty side when there is one; and
    each empty side is returned for some draw. *)
Theorem aiMove_takes_side (board : list Cell) (aiPlayer : Mark) (c : nat) :
  (∀ m, m ∈ availableMoves board → ¬ winsAt board aiPlayer m) →
  (∀ m, m ∈ availableMoves board → ¬ winsAt board (opponent aiPlayer) m) →
  availableMoves board ≠ [] →
  cell board 4 ≠ None →
  (∀ k, k ∈ [0; 2; 6; 8] → cell board k ≠ None) →
  c ∈ [1; 3; 5; 7] → cell board c = None →
  (∀ rnd, ∃ k, aiMove rnd board aiPlayer = Some k
               ∧ k ∈ [1; 3; 5; 7] ∧ cell board k = None)
  ∧ ∃ rnd, aiMove rnd board aiPlayer = Some c.
Proof.
  intros Hwin Hblock Hne Hcentre Hcorners Hc Hfree.
  assert (Hnone : emptyAmong board [0; 2; 6; 8] = []).
  { apply elem_of_nil_inv. intros k Hk. unfold emptyAmong in Hk.
    apply list_elem_of_filter in Hk as [Hk1 Hk2]. by destruct (Hcorners k Hk2). }
  assert (Hin : c ∈ emptyAmong board [1; 3; 5; 7]).
  { unfold emptyAmong. by apply list_elem_of_filter. }
  assert (Hlen : length (emptyAmong board [1; 3; 5; 7]) ≠ 0).
  { intros E. apply nil_length_inv in E. rewrite E in Hin.
    by apply elem_of_nil in Hin. }
  assert (Hstage : ∀ rnd, aiMove rnd board aiPlayer =
    emptyAmong board [1; 3; 5; 7]
      !! (rnd mod length (emptyAmong board [1; 3; 5; 7]))).
  { intros rnd. rewrite aiMove_without_threat by done.
    rewrite decide_False by done. simpl. rewrite Hnone. simpl.
    by rewrite decide_True by done. }
  split.
  - intros rnd. rewrite Hstage.
    destruct (emptyAmong_pick_is_Some board [1; 3; 5; 7] rnd Hlen) as [k Hk].
    exists k. split; [done|]. by apply emptyAmong_pick in Hk.
  - destruct (emptyAmong_reachable board [1; 3; 5; 7] c Hin) as [rnd Hr].
    exists rnd. by rewrite Hstage.
Qed.

(** ** One move of either player *)

Lemma isArrayIndex_square k : k < 9 → isArrayIndex (Z.of_nat k) = true.
Proof.
  intros Hk. unfold isArrayIndex. apply bool_decide_eq_true.
  change (2 ^ 32 - 1)%Z with 4294967295%Z. lia.
Qed.

Lemma boardGet_square b k :
  k < 9 → boardGet b (Z.of_nat k) = cell (elems b) k.
Proof.
  intros Hk. unfold boardGet. by rewrite isArrayIndex_square, Nat2Z.id.
Qed.

Lemma boardSet_square b k v :
  k < length (elems b) → k < 9 →
  boardSet (spread b) (Z.of_nat k) v
  = {| elems := <[k := Some v]> (elems b); props := ∅ |}.
Proof.
  intros Hlen Hk. unfold boardSet. rewrite isArrayIndex_square by done.
  simpl. rewrite Nat2Z.id. unfold setAt. by rewrite decide_True.
Qed.

Lemma renderedSquares_lt k : k ∈ renderedSquares → k < 9.
Proof.
  unfold renderedSquares. simpl. intros Hk.
  repeat (apply elem_of_cons in Hk as [->|Hk]; [lia|]).
  by apply elem_of_nil in Hk.
Qed.

Lemma aiMove_Some_available rnd board aiPlayer m :
  length board = 9 →
  aiMove rnd board aiPlayer = Some m → m ∈ availableMoves board.
Proof.
  intros Hlen. unfold aiMove. case_decide as Hn; [done|].
  destruct (firstWinning board aiPlayer _) as [w|] eqn:Ew.
  { intros [= <-]. by apply firstWinning_Some in Ew as [? _]. }
  destruct (firstWinning board (opponent aiPlayer) _) as [w|] eqn:Eb.
  { intros [= <-]. by apply firstWinning_Some in Eb as [? _]. }
  case_decide as Hc.
  { intros [= <-]. apply elem_of_availableMoves. split; [lia|done]. }
  assert (Hpick : ∀ candidates, (∀ k, k ∈ candidates → k < 9) →
    emptyAmong board candidates
      !! (rnd mod length (emptyAmong board candidates)) = Some m →
    m ∈ availableMoves board).
  { intros candidates Hlt [Hin Hnone]%emptyAmong_pick.
    apply elem_of_availableMoves. split; [|done]. rewrite Hlen. by apply Hlt. }
  case_decide as Hcorners.
  { apply Hpick. intros k Hk.
    repeat (apply elem_of_cons in Hk as [->|Hk]; [lia|]).
    by apply elem_of_nil in Hk. }
  case_decide as Hsides.
  { apply Hpick. intros k Hk.
    repeat (apply elem_of_cons in Hk as [->|Hk]; [lia|]).
    by apply elem_of_nil in Hk. }
  rewrite head_lookup. apply list_elem_of_lookup_2.
Qed.

Lemma aiTurnDue_true s :
  aiTurnDue s = true ↔
  mode s = AI ∧ gameOver s = false ∧ currentPlayer s = aiPlays s.
Proof.
  unfold aiTurnDue.
  destruct (decide (mode s = AI)) as [Hm|Hm];
    [rewrite (bool_decide_eq_true_2 _ Hm)|rewrite (bool_decide_eq_false_2 _ Hm)];
    simpl; [|split; [done|by intros [? _]]].
  destruct (gameOver s); [split; [done|by intros (_ & ? & _)]|].
  destruct (decide (currentPlayer s = aiPlays s)) as [Hc|Hc];
    [rewrite (bool_decide_eq_true_2 _ Hc)|rewrite (bool_decide_eq_false_2 _ Hc)];
    simpl; [done|split; [done|by intros (_ & _ & ?)]].
Qed.

(** The state after the current player's mark has gone to square [m]. *)
Lemma computerTurn_due rnd s :
  length (elems (board s)) = 9 →
  aiTurnDue s = true →
  ∃ m, aiMove rnd (elems (board s)) (aiPlays s) = Some m
       ∧ m ∈ availableMoves (elems (board s))
       ∧ computerTurn rnd s =
           {| mode := mode s;
              board := {| elems := <[m := Some (aiPlays s)]> (elems (board s));
                          props := ∅ |};
              xIsNext := negb (xIsNext s);
              aiPlays := aiPlays s |}.
Proof.
  intros Hlen Hdue. pose proof Hdue as (Hm & Hover & Hc)%aiTurnDue_true.
  assert (Hmoves : availableMoves (elems (board s)) ≠ []).
  { intros E. unfold gameOver, sessionIsDraw, isDraw, sessionWinner in Hover.
    rewrite E in Hover. simpl in Hover.
    by destruct (truthy (winner (calculateWinner (elems (board s))))). }
  destruct (aiMove rnd (elems (board s)) (aiPlays s)) as [m|] eqn:E.
  - pose proof (aiMove_Some_available _ _ _ _ Hlen E) as Hin.
    exists m. split; [done|]. split; [done|].
    apply elem_of_availableMoves in Hin as [Hlt Hfree].
    unfold computerTurn, aiTimeout. rewrite Hdue, E.
    rewrite boardGet_square, Hfree by lia. simpl.
    by rewrite boardSet_square by lia.
  - exfalso. unfold aiMove in E. case_decide as Hn.
    { by apply nil_length_inv in Hn. }
    destruct (firstWinning _ (aiPlays s) _); [done|].
    destruct (firstWinning _ (opponent (aiPlays s)) _); [done|].
    case_decide; [done|].
    case_decide as Hcorners.
    { destruct (emptyAmong_pick_is_Some (elems (board s)) [0; 2; 6; 8] rnd Hcorners)
        as [? E']. congruence. }
    case_decide as Hsides.
    { destruct (emptyAmong_pick_is_Some (elems (board s)) [1; 3; 5; 7] rnd Hsides)
        as [? E']. congruence. }
    by destruct (availableMoves (elems (board s))).
Qed.

Lemma step_move_cases s e :
  nineCells (board s) → viewEvent e → isMove e = true →
  step s e = s
  ∨ ∃ m, m < 9 ∧ cell (elems (board s)) m = None ∧ gameOver s = false
         ∧ step s e =
             {| mode := mode s;
                board := {| elems := <[m := Some (currentPlayer s)]>
                                       (elems (board s));
                            props := ∅ |};
                xIsNext := negb (xIsNext s);
                aiPlays := aiPlays s |}.
Proof.
  intros [Hlen _] Hview Hmove. destruct e as [index|rnd| | | |]; try done; simpl.
  - cbn [viewEvent] in Hview. apply list_elem_of_fmap in Hview as (k & -> & Hk).
    apply renderedSquares_lt in Hk.
    destruct (gameOver s) eqn:Hover; [left; by apply handlePlay_rejected; left|].
    destruct (boardGet (board s) (Z.of_nat k)) as [mark|] eqn:Hfree.
    { left. apply handlePlay_rejected. right. left. rewrite Hfree. by eexists. }
    destruct (decide (mode s = AI ∧ currentPlayer s = aiPlays s)) as [Hturn|Hturn].
    { left. apply handlePlay_rejected. by right; right. }
    right. exists k. rewrite boardGet_square in Hfree by done.
    split; [done|]. split; [done|]. split; [done|].
    rewrite handlePlay_accepted; [|done|by rewrite boardGet_square|done].
    by rewrite boardSet_square by lia.
  - destruct (aiTurnDue s) eqn:Hdue.
    + right. pose proof Hdue as (_ & Hover & Hc)%aiTurnDue_true.
      destruct (computerTurn_due rnd s Hlen Hdue) as (m & _ & Hin & E).
      apply elem_of_availableMoves in Hin as [Hlt Hfree].
      exists m. split; [lia|]. split; [done|]. split; [done|].
      by rewrite Hc.
    + left. unfold computerTurn. by rewrite Hdue.
Qed.

Lemma cell_insert_eq (board : list Cell) m v :
  m < length board → cell (<[m := Some v]> board) m = Some v.
Proof. intros Hm. unfold cell. by rewrite list_lookup_insert_eq. Qed.

Lemma cell_insert_ne (board : list Cell) m i v :
  m ≠ i → cell (<[m := Some v]> board) i = cell board i.
Proof. intros Hne. unfold cell. by rewrite list_lookup_insert_ne. Qed.

Lemma cell_None_lookup (board : list Cell) m :
  m < length board → cell board m = None → board !! m = Some None.
Proof.
  intros Hm Hc. apply lookup_lt_is_Some in Hm as [c Hl].
  unfold cell in Hc. rewrite Hl in Hc. simpl in Hc. by rewrite Hl, Hc.
Qed.

Lemma countMark_insert mark (board : list Cell) m v :
  m < length board → cell board m = None →
  countMark mark (<[m := Some v]> board)
  = countMark mark board + (if decide (mark = v) then 1 else 0).
Proof.
  intros Hm Hc. pose proof (cell_None_lookup board m Hm Hc) as Hl.
  rewrite insert_take_drop by done.
  rewrite <- (take_drop_middle board m None Hl) at 3.
  unfold countMark. rewrite !filter_app, !filter_cons, !length_app.
  destruct (decide (None = Some mark)) as [|_]; [done|].
  destruct (decide (mark = v)) as [->|Hne].
  - rewrite decide_True by done. simpl. lia.
  - rewrite decide_False by congruence. lia.
Qed.

Lemma length_availableMoves board :
  length (availableMoves board) + countMark X board + countMark O board
  = length board.
Proof.
  induction board as [|c board IH] using rev_ind; [done|].
  rewrite availableMoves_snoc, !countMark_snoc, !length_app. simpl.
  destruct c as [[]|]; simpl; repeat case_decide; simplify_eq; simpl; lia.
Qed.

Lemma winner_Some_line board mark :
  winner (calculateWinner board) = Some mark →
  ∃ l, l ∈ LINES ∧ lineHolds board mark l.
Proof.
  unfold calculateWinner. intros Hw.
  destruct (scanLines_shape LINES board) as [E|(mark' & l & E)];
    rewrite E in Hw; simpl in Hw; [done|].
  injection Hw as ->.
  apply scanLines_hit in E as (pre & post & E & Hl & _). exists l.
  split; [|done]. rewrite E, elem_of_app, elem_of_cons. auto.
Qed.

Lemma line_gives_winner board mark l :
  l ∈ LINES → lineHolds board mark l →
  is_Some (winner (calculateWinner board)).
Proof.
  unfold calculateWinner. intros Hin Hl.
  destruct (scanLines_shape LINES board) as [E|(mark' & l' & E)].
  - apply scanLines_miss in E. rewrite Forall_forall in E.
    specialize (E l Hin). apply lineWins_false with (mark := mark) in E. done.
  - rewrite E. by eexists.
Qed.

(** A line completed by a move on a board without winner belongs to the
    mover. *)
Lemma new_winner_is_mover board m v w :
  winner (calculateWinner board) = None →
  m < length board →
  winner (calculateWinner (<[m := Some v]> board)) = Some w →
  w = v.
Proof.
  intros Hnone Hm Hw. destruct (decide (w = v)) as [|Hne]; [done|exfalso].
  apply winner_Some_line in Hw as ([[a b] c] & Hin & Ha & Hb & Hc).
  assert (Hold : ∀ i, cell (<[m := Some v]> board) i = Some w →
                      cell board i = Some w).
  { intros i Hi. destruct (decide (m = i)) as [<-|Hmi].
    - rewrite cell_insert_eq in Hi by done. congruence.
    - by rewrite cell_insert_ne in Hi. }
  destruct (line_gives_winner board w (a, b, c) Hin) as [w' Hw'].
  - repeat split; by apply Hold.
  - congruence.
Qed.

Lemma step_reset_cases s e :
  isMove e = false →
  step s e = s ∨ (board (step s e) = emptyBoard).
Proof.
  destruct e as [| | | | |mark]; try done; simpl; auto.
  unfold chipClick. case_decide; auto.
Qed.

Lemma emptyBoard_fresh s :
  board s = emptyBoard → nineCells (board s) ∧ balanced s ∧ lastMoverWins s.
Proof.
  intros E. unfold nineCells, balanced, lastMoverWins, sessionWinner.
  rewrite E. split; [done|]. split; [by left|]. intros mark Hw. done.
Qed.

Lemma step_keeps_invariants s e :
  viewEvent e →
  nineCells (board s) ∧ balanced s ∧ lastMoverWins s →
  nineCells (board (step s e)) ∧ balanced (step s e) ∧ lastMoverWins (step s e).
Proof.
  intros Hview (Hnine & Hbal & Hlast).
  destruct (isMove e) eqn:Hmove.
  - destruct (step_move_cases s e Hnine Hview Hmove)
      as [->|(m & Hm & Hfree & Hover & ->)]; [done|].
    destruct Hnine as [Hlen Hprops].
    split; [|split].
    + split; simpl; [by rewrite length_insert|done].
    + unfold balanced in *. simpl.
      rewrite !countMark_insert by (done || lia). unfold currentPlayer.
      destruct (xIsNext s); simpl; repeat case_decide; simplify_eq; lia.
    + intros mark. unfold sessionWinner, currentPlayer. simpl. intros Hw.
      apply new_winner_is_mover in Hw; [|..|lia].
      * subst mark. unfold currentPlayer. by destruct (xIsNext s).
      * unfold gameOver, sessionWinner in Hover.
        by destruct (winner (calculateWinner (elems (board s)))).
  - destruct (step_reset_cases s e Hmove) as [->|E]; [done|].
    by apply emptyBoard_fresh.
Qed.

Lemma run_keeps_invariants s es :
  Forall viewEvent es →
  nineCells (board s) ∧ balanced s ∧ lastMoverWins s →
  nineCells (board (run s es)) ∧ balanced (run s es) ∧ lastMoverWins (run s es).
Proof.
  intros Hes. revert s. unfold run.
  induction Hes as [|e es He _ IH]; intros s Hinv; [done|].
  simpl. apply IH. by apply step_keeps_invariants.
Qed.

(** ** What every reachable state satisfies *)

(** X8.  Whatever the page is made to do from the first render on (clicks
    on the nine squares, the computer's turns, resets, restarts, changes of
    mode and of the computer's side), the board keeps exactly nine cells and
    no other property, the numbers of X and of O differ by at most one, the
    player with the extra mark is the one not to move, and the marks and the
    available moves add up to nine. *)
Theorem reachable_board_is_balanced (es : list Event) :
  Forall viewEvent es →
  let s := run initialSession es in
  length (elems (board s)) = 9
  ∧ props (board s) = ∅
  ∧ balanced s
  ∧ countMark X (elems (board s)) ≤ countMark O (elems (board s)) + 1
  ∧ countMark O (elems (board s)) ≤ countMark X (elems (board s)) + 1
  ∧ length (availableMoves (elems (board s)))
    + countMark X (elems (board s)) + countMark O (elems (board s)) = 9.
Proof.
  intros Hes s.
  destruct (run_keeps_invariants initialSession es Hes) as ([Hlen Hp] & Hbal & _).
  { by apply emptyBoard_fresh. }
  fold s in Hlen, Hp, Hbal. split; [done|]. split; [done|]. split; [done|].
  pose proof (length_availableMoves (elems (board s))) as Hcount.
  rewrite Hlen in Hcount. unfold balanced in Hbal.
  destruct Hbal as [?|[[? _]|[? _]]]; repeat split; lia.
Qed.

(** X9.  In every state the page can reach from the first render, a winner
    is the player who has just moved: when [calculateWinner] reports [mark],
    the player to move is the other one. *)
Theorem reachable_winner_moved_last (es : list Event) (mark : Mark) :
  Forall viewEvent es →
  status (run initialSession es) = Won mark →
  currentPlayer (run initialSession es) = opponent mark.
Proof.
  intros Hes Hwon.
  destruct (run_keeps_invariants initialSession es Hes) as (_ & _ & Hlast).
  { by apply emptyBoard_fresh. }
  apply Hlast. unfold status in Hwon.
  destruct (sessionWinner (run initialSession es)) as [w|]; [congruence|].
  by destruct (sessionIsDraw (run initialSession es)).
Qed.

(** ** What a move does *)

(** X10.  On a 9-cell board, a click on a square or a computer's turn that
    changes the state at all fills exactly one empty cell with the mark of
    the player to move, leaves every other cell, the mode and the computer's
    side alone, passes the turn, and so takes one move off [availableMoves]. *)
Theorem move_fills_one_empty_cell (s : Session) (e : Event) :
  nineCells (board s) → viewEvent e → isMove e = true →
  step s e ≠ s →
  ∃ m, m < 9
       ∧ status s = InProgress
       ∧ cell (elems (board s)) m = None
       ∧ cell (elems (board (step s e))) m = Some (currentPlayer s)
       ∧ (∀ i, i ≠ m →
            cell (elems (board (step s e))) i = cell (elems (board s)) i)
       ∧ nineCells (board (step s e))
       ∧ xIsNext (step s e) = negb (xIsNext s)
       ∧ mode (step s e) = mode s
       ∧ aiPlays (step s e) = aiPlays s
       ∧ length (availableMoves (elems (board (step s e)))) + 1
         = length (availableMoves (elems (board s))).
Proof.
  intros Hnine Hview Hmove Hchg.
  destruct (step_move_cases s e Hnine Hview Hmove)
    as [E|(m & Hm & Hfree & Hover & E)]; [done|].
  destruct Hnine as [Hlen Hprops].
  exists m. rewrite E. simpl. split; [done|].
  split; [by apply gameOver_status|]. split; [done|].
  split; [apply cell_insert_eq; lia|].
  split; [intros i Hi; by apply cell_insert_ne|].
  split; [split; simpl; [by rewrite length_insert|done]|].
  do 3 (split; [done|]).
  pose proof (length_availableMoves (elems (board s))) as H1.
  pose proof (length_availableMoves
                (<[m := Some (currentPlayer s)]> (elems (board s)))) as H2.
  rewrite length_insert, !countMark_insert in H2 by (done || lia).
  destruct (currentPlayer s); repeat case_decide; simplify_eq; lia.
Qed.

Lemma boardSet_spread_keeps b idx v i mark :
  boardGet b idx = None → cell (elems b) i = Some mark →
  cell (elems (boardSet (spread b) idx v)) i = Some mark.
Proof.
  intros Hfree Hi. unfold boardSet, boardGet in *.
  destruct (isArrayIndex idx); simpl; [|done].
  assert (i < length (elems b)) as Hlt.
  { unfold cell in Hi. apply lookup_lt_is_Some.
    destruct (elems b !! i); [by eexists|done]. }
  rewrite cell_setAt_ne; [done| |done]. intros E. rewrite E in Hfree. congruence.
Qed.

Lemma step_move_keeps_marks s e i mark :
  isMove e = true →
  cell (elems (board s)) i = Some mark →
  cell (elems (board (step s e))) i = Some mark.
Proof.
  intros Hmove Hi. destruct e as [index|rnd| | | |]; try done; simpl.
  - destruct (gameOver s) eqn:Hover; [by rewrite handlePlay_rejected by auto|].
    destruct (boardGet (board s) index) as [w|] eqn:Hfree.
    { by rewrite handlePlay_rejected by (rewrite Hfree; eauto). }
    destruct (decide (mode s = AI ∧ currentPlayer s = aiPlays s)) as [Hturn|Hturn].
    { by rewrite handlePlay_rejected by auto. }
    rewrite handlePlay_accepted by done. simpl. by apply boardSet_spread_keeps.
  - unfold computerTurn. destruct (aiTurnDue s); [|done].
    unfold aiTimeout. destruct (aiMove rnd _ _) as [move|]; [|done]. simpl.
    destruct (boardGet (board s) (Z.of_nat move)) as [w|] eqn:Hfree; [done|].
    simpl. by apply boardSet_spread_keeps.
Qed.

(** X11.  No click and no computer's turn ever changes or removes a mark
    that is on the board, whatever the index clicked and whatever the state:
    through any run of such events every marked cell keeps its mark. *)
Theorem moves_never_overwrite (s : Session) (es : list Event) (i : nat)
    (mark : Mark) :
  Forall (λ e, isMove e = true) es →
  cell (elems (board s)) i = Some mark →
  cell (elems (board (run s es))) i = Some mark.
Proof.
  intros Hes. revert s. unfold run.
  induction Hes as [|e es He _ IH]; intros s Hi; [done|].
  simpl. apply IH. by apply step_move_keeps_marks.
Qed.

(** X12.  [handlePlay] changes the state exactly when the game is in
    progress, [board[index]] holds no mark, and it is not the computer's
    turn in AI mode; this holds for every state and every integer index. *)
Theorem handlePlay_changes_iff (s : Session) (index : Z) :
  handlePlay s index ≠ s ↔
  status s = InProgress
  ∧ boardGet (board s) index = None
  ∧ ¬ (mode s = AI ∧ currentPlayer s = aiPlays s).
Proof.
  rewrite <- gameOver_status. split.
  - intros Hchg. destruct (gameOver s) eqn:Hover.
    { destruct Hchg. apply handlePlay_rejected. auto. }
    destruct (boardGet (board s) index) as [w|] eqn:Hfree.
    { destruct Hchg. apply handlePlay_rejected. rewrite Hfree. eauto. }
    split; [done|]. split; [done|]. intros Hturn.
    destruct Hchg. apply handlePlay_rejected. auto.
  - intros (Hover & Hfree & Hturn) E.
    apply (f_equal xIsNext) in E. rewrite handlePlay_accepted in E by done.
    simpl in E. by destruct (xIsNext s).
Qed.

(** X13.  On a 9-cell board the computer's turn changes the state exactly
    when the mode is AI, the game is in progress and the player to move is
    the computer's mark; it then puts the computer's mark on one of the
    available moves, the one [aiMove] returns, and passes the turn. *)
Theorem computerTurn_moves_iff_due (rnd : nat) (s : Session) :
  length (elems (board s)) = 9 →
  (computerTurn rnd s ≠ s ↔
     mode s = AI ∧ status s = InProgress ∧ currentPlayer s = aiPlays s)
  ∧ (computerTurn rnd s ≠ s →
     ∃ m, aiMove rnd (elems (board s)) (aiPlays s) = Some m
          ∧ m ∈ availableMoves (elems (board s))
          ∧ elems (board (computerTurn rnd s))
            = <[m := Some (aiPlays s)]> (elems (board s))
          ∧ xIsNext (computerTurn rnd s) = negb (xIsNext s)).
Proof.
  intros Hlen. rewrite <- gameOver_status, <- aiTurnDue_true.
  assert (Hno : aiTurnDue s = false → computerTurn rnd s = s).
  { intros E. unfold computerTurn. by rewrite E. }
  split; [split|].
  - intros Hchg. destruct (aiTurnDue s); [done|]. by destruct Hchg; apply Hno.
  - intros Hdue E. destruct (computerTurn_due rnd s Hlen Hdue) as (m & _ & _ & E').
    rewrite E' in E. apply (f_equal xIsNext) in E. simpl in E.
    by destruct (xIsNext s).
  - intros Hchg. destruct (aiTurnDue s) eqn:Hdue; [|by destruct Hchg; apply Hno].
    destruct (computerTurn_due rnd s Hlen Hdue) as (m & Hm & Hin & E).
    exists m. rewrite E. done.
Qed.

Lemma step_move_count s e :
  nineCells (board s) → viewEvent e → isMove e = true →
  step s e = s
  ∨ (nineCells (board (step s e))
     ∧ length (availableMoves (elems (board (step s e)))) + 1
       = length (availableMoves (elems (board s)))).
Proof.
  intros Hnine Hview Hmove.
  destruct (step_move_cases s e Hnine Hview Hmove)
    as [E|(m & Hm & Hfree & Hover & E)]; [by left|right].
  destruct Hnine as [Hlen Hprops]. rewrite E. simpl.
  split; [split; simpl; [by rewrite length_insert|done]|].
  pose proof (length_availableMoves (elems (board s))) as H1.
  pose proof (length_availableMoves
                (<[m := Some (currentPlayer s)]> (elems (board s)))) as H2.
  rewrite length_insert, !countMark_insert in H2 by (done || lia).
  destruct (currentPlayer s); repeat case_decide; simplify_eq; lia.
Qed.

(** X14.  Between two resets at most nine moves are made: in any run of
    clicks on squares and computer's turns from a 9-cell board, the number
    of events that change the state is at most the number of available
    moves at the start. *)
Theorem moves_bounded_by_available (s : Session) (es : list Event) :
  nineCells (board s) →
  Forall (λ e, viewEvent e ∧ isMove e = true) es →
  changes s es ≤ length (availableMoves (elems (board s)))
  ∧ changes s es ≤ 9.
Proof.
  intros Hnine Hes.
  assert (changes s es ≤ length (availableMoves (elems (board s)))) as Hle.
  { revert s Hnine. induction Hes as [|e es [Hview Hmove] _ IH]; intros s Hnine.
    - simpl. lia.
    - simpl. destruct (step_move_count s e Hnine Hview Hmove) as [E|[Hnine' Hcount]].
      + rewrite decide_True by done. rewrite E. simpl. by apply IH.
      + specialize (IH _ Hnine'). case_decide; lia. }
  split; [done|].
  pose proof (length_availableMoves (elems (board s))) as Hcount.
  destruct Hnine as [Hlen _]. lia.
Qed.

(** ** The opponent at work *)

Lemma aiMove_win_stage rnd board aiPlayer w :
  firstWinning board aiPlayer (availableMoves board) = Some w →
  aiMove rnd board aiPlayer = Some w.
Proof.
  intros E. unfold aiMove. case_decide as Hn; [|by rewrite E].
  apply nil_length_inv in Hn. by rewrite Hn in E.
Qed.

(** X15.  When it is the computer's turn on a 9-cell board and some
    available move completes a line for it, the computer's turn ends the
    game: the status becomes a win for the computer's mark. *)
Theorem computerTurn_wins_when_it_can (rnd : nat) (s : Session) (m : nat) :
  length (elems (board s)) = 9 →
  mode s = AI → status s = InProgress → currentPlayer s = aiPlays s →
  m ∈ availableMoves (elems (board s)) →
  winsAt (elems (board s)) (aiPlays s) m →
  status (computerTurn rnd s) = Won (aiPlays s).
Proof.
  intros Hlen Hmode Hprog Hturn Hin Hw.
  assert (aiTurnDue s = true) as Hdue.
  { apply aiTurnDue_true. by rewrite gameOver_status. }
  destruct (firstWinning_is_Some _ (aiPlays s) _ m Hin Hw) as [w Ew].
  pose proof (aiMove_win_stage rnd _ _ _ Ew) as Hai.
  destruct (computerTurn_due rnd s Hlen Hdue) as (m' & Hm' & _ & E).
  rewrite Hai in Hm'. injection Hm' as <-.
  apply firstWinning_Some in Ew as [Hwin Hww].
  apply elem_of_availableMoves in Hwin as [Hlt _].
  unfold winsAt, setAt in Hww. rewrite decide_True in Hww by done.
  rewrite E. unfold status, sessionWinner. simpl. by rewrite Hww.
Qed.

(** X16.  Blocking works: on a board without winner where the computer
    cannot complete a line and the human has exactly one move that would,
    [aiMove] returns that move, and once the computer's mark is there the
    human has no move left that completes a line. *)
Theorem block_leaves_no_threat (rnd : nat) (board : list Cell)
    (aiPlayer : Mark) (m : nat) :
  winner (calculateWinner board) = None →
  (∀ m', m' ∈ availableMoves board → ¬ winsAt board aiPlayer m') →
  m ∈ availableMoves board →
  winsAt board (opponent aiPlayer) m →
  (∀ m', m' ∈ availableMoves board → winsAt board (opponent aiPlayer) m' →
         m' = m) →
  aiMove rnd board aiPlayer = Some m
  ∧ ∀ m', m' ∈ availableMoves (setAt board m aiPlayer) →
          ¬ winsAt (setAt board m aiPlayer) (opponent aiPlayer) m'.
Proof.
  intros Hnone Hnowin Hin Hw Huniq. split.
  { unfold aiMove. case_decide as Hn.
    { by destruct (availableMoves_length_ne_0 board m). }
    apply firstWinning_None in Hnowin. rewrite Hnowin.
    by rewrite (firstWinning_unique board (opponent aiPlayer) _ m). }
  apply elem_of_availableMoves in Hin as [Hm Hfree].
  assert (setAt board m aiPlayer = <[m := Some aiPlayer]> board) as ->.
  { unfold setAt. by rewrite decide_True. }
  intros m' [Hm' Hfree']%elem_of_availableMoves Hw'.
  rewrite length_insert in Hm'.
  assert (m ≠ m') as Hne.
  { intros <-. rewrite cell_insert_eq in Hfree' by done. done. }
  rewrite cell_insert_ne in Hfree' by done.
  unfold winsAt, setAt in Hw'.
  rewrite decide_True in Hw' by (by rewrite length_insert).
  apply winner_Some_line in Hw' as ([[a b] c] & Hl & Ha & Hb & Hc).
  assert (Hback : ∀ x,
    cell (<[m' := Some (opponent aiPlayer)]> (<[m := Some aiPlayer]> board)) x
      = Some (opponent aiPlayer) →
    cell (<[m' := Some (opponent aiPlayer)]> board) x
      = Some (opponent aiPlayer)).
  { intros x Hx. destruct (decide (m' = x)) as [<-|Hx'].
    - by apply cell_insert_eq.
    - rewrite cell_insert_ne in Hx by done. rewrite cell_insert_ne by done.
      destruct (decide (m = x)) as [<-|Hx''].
      + rewrite cell_insert_eq in Hx by done. by destruct aiPlayer.
      + by rewrite cell_insert_ne in Hx. }
  destruct (line_gives_winner (<[m' := Some (opponent aiPlayer)]> board)
              (opponent aiPlayer) (a, b, c) Hl) as [w Hwin].
  { repeat split; by apply Hback. }
  pose proof (new_winner_is_mover board m' _ w Hnone Hm' Hwin) as ->.
  apply Hne. symmetry. apply Huniq.
  - by apply elem_of_availableMoves.
  - unfold winsAt, setAt. by rewrite decide_True.
Qed.

(** ** The reset family *)

(** X17.  Every handler of the reset family that does anything (Reset,
    Restart & Swap, the mode toggle, an AI side chip other than the current
    one) leaves the empty 9-cell board with the game in progress and all
    nine moves available.  Only the mode toggle changes the mode, only the
    chip changes the computer's side, and X is to move afterwards except
    after Restart & Swap, which passes the first move to the other player. *)
Theorem reset_family_starts_fresh (s : Session) (e : Event) :
  isMove e = false →
  e ≠ SetComputerMark (aiPlays s) →
  board (step s e) = emptyBoard
  ∧ status (step s e) = InProgress
  ∧ availableMoves (elems (board (step s e))) = [0; 1; 2; 3; 4; 5; 6; 7; 8]
  ∧ xIsNext (step s e) = (if decide (e = RestartAndSwap)
                          then negb (xIsNext s) else true)
  ∧ ((∀ m, e ≠ SetMode m) → mode (step s e) = mode s)
  ∧ ((∀ mark, e ≠ SetComputerMark mark) → aiPlays (step s e) = aiPlays s).
Proof.
  intros Hmove Hne.
  assert (Hb : board (step s e) = emptyBoard).
  { destruct e as [| | | | |mark]; try done. simpl. unfold chipClick.
    case_decide as Hm; [done|]. destruct Hne. f_equal.
    by destruct (decide (aiPlays s = mark)). }
  split; [done|]. unfold status, sessionWinner, sessionIsDraw. rewrite Hb.
  split; [done|]. split; [done|].
  destruct e as [| | | |m|mark]; try done; simpl.
  - split; [done|]. split; [intros Hm; by destruct (Hm m)|done].
  - unfold chipClick. case_decide as Hm; simpl.
    + split; [done|]. split; [done|]. intros Hc. by destruct (Hc mark).
    + destruct Hne. f_equal. by destruct (decide (aiPlays s = mark)).
Qed.

(** X18.  After a click on the AI side chip of [mark] the computer plays
    [mark], whatever it played before: toggling between the two marks
    amounts to setting the one asked for.  The mode is kept. *)
Theorem chipClick_sets_side (s : Session) (mark : Mark) :
  aiPlays (chipClick s mark) = mark
  ∧ mode (chipClick s mark) = mode s.
Proof.
  unfold chipClick, toggleAiSide. case_decide as Hm; simpl.
  - split; [|done]. destruct (aiPlays s), mark; done.
  - split; [|done]. by destruct (decide (aiPlays s = mark)).
Qed.

(** X19.  How the reset handlers compose: Restart & Swap twice gives the
    first move back to the player who had it, toggling the computer's side
    twice restores it, Reset is idempotent, and a Reset after any of the
    other two handlers undoes their effect on the turn. *)
Theorem reset_handlers_compose (s : Session) :
  xIsNext (restartAndSwap (restartAndSwap s)) = xIsNext s
  ∧ aiPlays (toggleAiSide (toggleAiSide s)) = aiPlays s
  ∧ resetGame (resetGame s) = resetGame s
  ∧ resetGame (restartAndSwap s) = resetGame s
  ∧ xIsNext (resetGame (toggleAiSide s)) = true
  ∧ restartAndSwap (restartAndSwap (resetGame s)) = resetGame s.
Proof.
  unfold restartAndSwap, resetGame, toggleAiSide. simpl.
  split; [by destruct (xIsNext s)|].
  split; [by destruct (aiPlays s)|]. done.
Qed.

(** ** The view *)

Lemma calculateWinner_line board mark l :
  calculateWinner board = {| winner := Some mark; line := Some l |} →
  l ∈ LINES ∧ lineHolds board mark l.
Proof.
  unfold calculateWinner. intros E.
  apply scanLines_hit in E as (pre & post & E & Hl & _).
  split; [|done]. rewrite E, elem_of_app, elem_of_cons. auto.
Qed.

(** X20.  The squares that [Board] highlights are those of the line
    [calculateWinner] returns: none when there is no winner, and with a
    winner exactly three of the nine rendered squares, each holding the
    winner's mark. *)
Theorem highlight_marks_winning_line (board : list Cell) :
  let r := calculateWinner board in
  (winner r = None → ∀ i, highlight (line r) i = false)
  ∧ (∀ i, highlight (line r) i = true →
       is_Some (winner r) ∧ cell board i = winner r)
  ∧ (is_Some (winner r) →
       length (filter (λ i, highlight (line r) i = true) renderedSquares) = 3).
Proof.
  intros r. subst r.
  destruct (scanLines_shape LINES board) as [E|(mark & l & E)];
    fold (calculateWinner board) in E.
  - rewrite E. simpl. split; [done|]. split; [done|]. by intros [? ?].
  - pose proof (calculateWinner_line board mark l E) as [Hin Hl].
    rewrite E. simpl. split; [done|]. split.
    + intros i Hi. split; [by eexists|].
      destruct l as [[a b] c]. simpl in Hi. apply bool_decide_eq_true in Hi.
      destruct Hl as (Ha & Hb & Hc).
      repeat (apply elem_of_cons in Hi as [->|Hi]; [done|]).
      by apply elem_of_nil in Hi.
    + intros _. unfold LINES in Hin.
      repeat (apply elem_of_cons in Hin as [->|Hin]; [by vm_compute|]).
      by apply elem_of_nil in Hin.
Qed.

(** * Instances of the further properties *)

(** Settles a statement about every available move of a concrete 9-cell
    board by looking at the nine squares one by one. *)
Ltac each_square m Hlt Hfree Hw :=
  simpl in Hlt;
  do 9 (destruct m as [|m];
        [first [ reflexivity
               | vm_compute in Hfree; discriminate
               | vm_compute in Hw; discriminate ]|]);
  lia.

Lemma aiMove_lowest_win_witness :
  6 ∈ availableMoves twoWins ∧ winsAt twoWins X 6
  ∧ ∃ w, aiMove 0 twoWins X = Some w ∧ w ≤ 6.
Proof.
  assert (Hin : 6 ∈ availableMoves twoWins).
  { apply elem_of_availableMoves. split; [simpl; lia|reflexivity]. }
  assert (Hw : winsAt twoWins X 6) by reflexivity.
  split; [exact Hin|]. split; [exact Hw|].
  destruct (aiMove_lowest_win 0 twoWins X 6 Hin Hw) as (w & E & _ & _ & Hleast).
  exists w. split; [exact E|]. apply Hleast; [exact Hin|exact Hw].
Defined.

Lemma aiMove_lowest_block_witness :
  6 ∈ availableMoves twoWins ∧ winsAt twoWins X 6
  ∧ ∃ w, aiMove 0 twoWins O = Some w ∧ w ≤ 6.
Proof.
  assert (Hin : 6 ∈ availableMoves twoWins).
  { apply elem_of_availableMoves. split; [simpl; lia|reflexivity]. }
  assert (Hw : winsAt twoWins (opponent O) 6) by reflexivity.
  split; [exact Hin|]. split; [exact Hw|].
  destruct (aiMove_lowest_block 0 twoWins O 6) as (w & E & _ & _ & Hleast);
    [|exact Hin|exact Hw|].
  - intros m' [Hlt Hfree]%elem_of_availableMoves Hw'.
    each_square m' Hlt Hfree Hw'.
  - exists w. split; [exact E|]. apply Hleast; [exact Hin|exact Hw].
Defined.

Lemma aiMove_takes_centre_witness :
  4 ∈ availableMoves (elems emptyBoard) ∧ aiMove 7 (elems emptyBoard) O = Some 4.
Proof.
  assert (Hin : 4 ∈ availableMoves (elems emptyBoard)).
  { apply elem_of_availableMoves. split; [simpl; lia|reflexivity]. }
  split; [exact Hin|].
  apply (aiMove_takes_centre 7 (elems emptyBoard) O); [| |exact Hin].
  - intros m' [Hlt Hfree]%elem_of_availableMoves Hw'.
    each_square m' Hlt Hfree Hw'.
  - intros m' [Hlt Hfree]%elem_of_availableMoves Hw'.
    each_square m' Hlt Hfree Hw'.
Defined.

Lemma aiMove_takes_corner_witness :
  cell centreTaken 4 ≠ None ∧ cell centreTaken 8 = None
  ∧ ∃ rnd, aiMove rnd centreTaken O = Some 8.
Proof.
  assert (Hc : cell centreTaken 4 ≠ None) by discriminate.
  split; [exact Hc|]. split; [reflexivity|].
  destruct (aiMove_takes_corner centreTaken O 8) as [_ Hreach];
    [| |discriminate|exact Hc| |reflexivity|exact Hreach].
  - intros m' [Hlt Hfree]%elem_of_availableMoves Hw'.
    each_square m' Hlt Hfree Hw'.
  - intros m' [Hlt Hfree]%elem_of_availableMoves Hw'.
    each_square m' Hlt Hfree Hw'.
  - apply list_elem_of_In. simpl. auto.
Defined.

Lemma aiMove_takes_side_witness :
  cell sidesLeft 5 = None ∧ ∃ rnd, aiMove rnd sidesLeft O = Some 5.
Proof.
  split; [reflexivity|].
  destruct (aiMove_takes_side sidesLeft O 5) as [_ Hreach];
    [| |discriminate|discriminate| | |reflexivity|exact Hreach].
  - intros m' [Hlt Hfree]%elem_of_availableMoves Hw'.
    each_square m' Hlt Hfree Hw'.
  - intros m' [Hlt Hfree]%elem_of_availableMoves Hw'.
    each_square m' Hlt Hfree Hw'.
  - intros k Hk%list_elem_of_In. simpl in Hk.
    destruct Hk as [<-|[<-|[<-|[<-|[]]]]]; discriminate.
  - apply list_elem_of_In. simpl. auto.
Defined.

Lemma reachable_board_is_balanced_witness :
  Forall viewEvent [Play 4; ComputerTurn 0; RestartAndSwap; Play 0]
  ∧ balanced (run initialSession
                [Play 4; ComputerTurn 0; RestartAndSwap; Play 0]).
Proof.
  assert (Hes : Forall viewEvent [Play 4; ComputerTurn 0; RestartAndSwap; Play 0]).
  { apply (bool_decide_unpack _). vm_compute. reflexivity. }
  split; [exact Hes|].
  destruct (reachable_board_is_balanced _ Hes) as (_ & _ & Hbal & _).
  exact Hbal.
Defined.

Lemma reachable_winner_moved_last_witness :
  status (run initialSession
            [SetMode PVP; Play 0; Play 4; Play 1; Play 5; Play 2]) = Won X
  ∧ currentPlayer (run initialSession
            [SetMode PVP; Play 0; Play 4; Play 1; Play 5; Play 2]) = O.
Proof.
  split; [reflexivity|].
  apply (reachable_winner_moved_last
           [SetMode PVP; Play 0; Play 4; Play 1; Play 5; Play 2] X);
    [|reflexivity].
  apply (bool_decide_unpack _). vm_compute. reflexivity.
Defined.

Lemma move_fills_one_empty_cell_witness :
  nineCells (board midGame) ∧ step midGame (Play 2) ≠ midGame
  ∧ ∃ m, cell (elems (board (step midGame (Play 2)))) m = Some O.
Proof.
  assert (Hnine : nineCells (board midGame)) by (split; reflexivity).
  assert (Hchg : step midGame (Play 2) ≠ midGame).
  { intros E. apply (f_equal xIsNext) in E. vm_compute in E. discriminate. }
  split; [exact Hnine|]. split; [exact Hchg|].
  destruct (move_fills_one_empty_cell midGame (Play 2) Hnine)
    as (m & _ & _ & _ & Hm & _); [|reflexivity|exact Hchg|].
  - apply (bool_decide_unpack _). vm_compute. reflexivity.
  - exists m. exact Hm.
Defined.

Lemma moves_never_overwrite_witness :
  cell (elems (board midGame)) 0 = Some X
  ∧ cell (elems (board (run midGame [Play 0; Play 2; ComputerTurn 3; Play (-1)])))
         0 = Some X.
Proof.
  split; [reflexivity|].
  apply (moves_never_overwrite midGame); [|reflexivity].
  repeat constructor.
Defined.

Lemma computerTurn_moves_iff_due_witness :
  length (elems (board aiToOpen)) = 9 ∧ computerTurn 0 aiToOpen ≠ aiToOpen.
Proof.
  split; [reflexivity|].
  destruct (computerTurn_moves_iff_due 0 aiToOpen eq_refl) as [[_ Hdue] _].
  apply Hdue. split; [reflexivity|]. split; reflexivity.
Defined.

Lemma moves_bounded_by_available_witness :
  nineCells (board midGame)
  ∧ changes midGame [Play 0; Play 2; Play 5; Play 2]
    ≤ length (availableMoves (elems (board midGame))).
Proof.
  assert (Hnine : nineCells (board midGame)) by (split; reflexivity).
  split; [exact Hnine|].
  destruct (moves_bounded_by_available midGame [Play 0; Play 2; Play 5; Play 2] Hnine)
    as [Hle _]; [|exact Hle].
  apply (bool_decide_unpack _). vm_compute. reflexivity.
Defined.

Lemma computerTurn_wins_when_it_can_witness :
  status aiCanWin = InProgress ∧ winsAt (elems (board aiCanWin)) O 5
  ∧ status (computerTurn 0 aiCanWin) = Won O.
Proof.
  split; [reflexivity|]. split; [reflexivity|].
  apply (computerTurn_wins_when_it_can 0 aiCanWin 5); try reflexivity.
  apply elem_of_availableMoves. split; [simpl; lia|reflexivity].
Defined.

Lemma block_leaves_no_threat_witness :
  winsAt xThreat X 2 ∧ aiMove 0 xThreat O = Some 2
  ∧ ¬ winsAt (setAt xThreat 2 O) X 6.
Proof.
  split; [reflexivity|].
  destruct (block_leaves_no_threat 0 xThreat O 2) as [Hmove Hsafe];
    [reflexivity| | |reflexivity| |].
  - intros m' [Hlt Hfree]%elem_of_availableMoves Hw'.
    each_square m' Hlt Hfree Hw'.
  - apply elem_of_availableMoves. split; [simpl; lia|reflexivity].
  - intros m' [Hlt Hfree]%elem_of_availableMoves Hw'.
    each_square m' Hlt Hfree Hw'.
  - split; [exact Hmove|]. apply Hsafe.
    apply elem_of_availableMoves. split; [simpl; lia|reflexivity].
Defined.

Lemma reset_family_starts_fresh_witness :
  isMove RestartAndSwap = false
  ∧ board (step midGame RestartAndSwap) = emptyBoard
  ∧ xIsNext (step midGame RestartAndSwap) = true.
Proof.
  split; [reflexivity|].
  destruct (reset_family_starts_fresh midGame RestartAndSwap)
    as (Hb & _ & _ & Hx & _); [reflexivity|discriminate|].
  split; [exact Hb|exact Hx].
Defined.

(** ** The game never gets stuck, the timer never does harm *)

(** X21.  On a 9-cell board the game is in progress exactly when the page
    offers a move that changes the state: a click on some square, or the
    computer's turn.  So a game in progress can always go on, and a finished
    one cannot. *)
Theorem in_progress_iff_some_move (s : Session) :
  length (elems (board s)) = 9 →
  status s = InProgress ↔
  ∃ e, viewEvent e ∧ isMove e = true ∧ step s e ≠ s.
Proof.
  intros Hlen. rewrite <- gameOver_status. split.
  - intros Hover.
    destruct (aiTurnDue s) eqn:Hdue.
    + exists (ComputerTurn 0). split; [done|]. split; [done|]. simpl.
      destruct (computerTurn_due 0 s Hlen Hdue) as (m & _ & _ & E).
      rewrite E. intros E'. apply (f_equal xIsNext) in E'. simpl in E'.
      by destruct (xIsNext s).
    + assert (Hmoves : availableMoves (elems (board s)) ≠ []).
      { intros E. unfold gameOver, sessionIsDraw, isDraw, sessionWinner in Hover.
        rewrite E in Hover. simpl in Hover.
        by destruct (truthy (winner (calculateWinner (elems (board s))))). }
      destruct (availableMoves (elems (board s))) as [|m ms] eqn:E; [done|].
      assert (m ∈ availableMoves (elems (board s))) as Hin by (rewrite E; by left).
      apply elem_of_availableMoves in Hin as [Hm Hfree]. rewrite Hlen in Hm.
      exists (Play (Z.of_nat m)). split; [|split; [done|]].
      * cbn [viewEvent]. apply list_elem_of_fmap. exists m. split; [done|].
        unfold renderedSquares. simpl.
        do 9 (destruct m as [|m]; [by repeat constructor|]). lia.
      * simpl. rewrite handlePlay_accepted.
        -- intros E'. apply (f_equal xIsNext) in E'. simpl in E'.
           by destruct (xIsNext s).
        -- done.
        -- by rewrite boardGet_square.
        -- intros [Hmode Hturn]. apply not_true_iff_false in Hdue. apply Hdue.
           by apply aiTurnDue_true.
  - intros (e & _ & Hmove & Hchg). destruct (gameOver s) eqn:Hover; [|done].
    destruct Hchg. destruct e; try done; simpl.
    + by apply handlePlay_gameOver.
    + by apply computerTurn_gameOver.
Qed.

(** X22.  The timer callback of the AI turn effect never changes or removes
    a mark, even when the board it is applied to is no longer the one it was
    armed for, and it never touches the mode or the computer's side. *)
Theorem aiTimeout_keeps_marks (rnd : nat) (shown s : Session) :
  (∀ i mark, cell (elems (board s)) i = Some mark →
             cell (elems (board (aiTimeout rnd shown s))) i = Some mark)
  ∧ mode (aiTimeout rnd shown s) = mode s
  ∧ aiPlays (aiTimeout rnd shown s) = aiPlays s.
Proof.
  unfold aiTimeout.
  destruct (aiMove rnd (elems (board shown)) (aiPlays shown)) as [move|];
    [|done].
  simpl. split; [|done]. intros i mark Hi.
  destruct (boardGet (board s) (Z.of_nat move)) as [w|] eqn:Hfree; [done|].
  simpl. by apply boardSet_spread_keeps.
Qed.

(** X23.  The status line tells the situations apart: two states show the
    same [statusMessage] exactly when they have the same status (the same
    winner, a draw, or in progress) and, while in progress, the same player
    to move; after a Reset it reads [Turn: X]. *)
Theorem statusMessage_faithful (s s' : Session) :
  (statusMessage s = statusMessage s' ↔
     status s = status s'
     ∧ (status s = InProgress → currentPlayer s = currentPlayer s'))
  ∧ statusMessage (resetGame s) = "Turn: X"%string.
Proof.
  split; [|done]. unfold statusMessage, status, currentPlayer.
  destruct (sessionWinner s) as [[]|], (sessionWinner s') as [[]|],
    (sessionIsDraw s), (sessionIsDraw s'), (xIsNext s), (xIsNext s');
    simpl; split; try done; try (intros [? ?]; done);
    try (intros [_ Hp]; by specialize (Hp eq_refl)).
Qed.

Lemma in_progress_iff_some_move_witness :
  length (elems (board aiToOpen)) = 9
  ∧ ∃ e, viewEvent e ∧ isMove e = true ∧ step aiToOpen e ≠ aiToOpen.
Proof.
  split; [reflexivity|].
  destruct (in_progress_iff_some_move aiToOpen eq_refl) as [Hgo _].
  apply Hgo. reflexivity.
Defined.
